(** * Smart search: keyword scoring and destination ranking

    A shallow embedding of the scoring and matching pipeline of
    [src/search.js]: the catalog load ([DESTINATIONS]), the scorer
    ([analyzeQueryWithClaude], [fallbackScoring]) and the ranker
    ([findMatchingDestinations]).

    Modelling conventions.
    - JavaScript strings are [string]; the code only searches them for
      ASCII delimiters and keywords and cuts them at the positions found.
    - Numbers computed by the code are integers ([Z]); [NaN], which the
      code can produce by adding to a missing property, is explicit.
      Numbers read from JSON text are rationals.
    - A plain object used as a map from keyword to score is a
      [gmap string jsnum].
    - An exception is the [None] of an [option]; every [try]/[catch] of
      the source is a [match] on it.
    - Built-ins of the JavaScript platform that the source calls but does
      not define ([String.prototype.toLowerCase], [JSON.parse], the
      conversion of a value to a property key) are the fields of the
      class [JSHost]; every theorem holds for all hosts. *)

From Stdlib Require Import ZArith QArith String Ascii List Lia.
From stdpp Require Import gmap strings list fin_maps sorting.

Local Open Scope string_scope.
Local Open Scope list_scope.
Local Open Scope Z_scope.
Local Set Warnings "-register-all".

(** ** JavaScript values *)

(** Values produced by [JSON.parse], plus [undefined], which reading a
    missing property yields.  An object lists its own properties, each
    name once. *)
Inductive jsval : Type :=
| JUndefined
| JNull
| JBool (b : bool)
| JNum (q : Q)
| JStr (s : string)
| JArr (elements : list jsval)
| JObj (properties : list (string * jsval)).

(** Numbers held in a score object built by the code. *)
Inductive jsnum : Type :=
| Num (z : Z)
| NaN.

(** [x + n] for a number [n], where [x] is the result of a property read
    ([None]: the property is missing, so [x] is [undefined]). *)
Definition js_add (x : option jsnum) (n : Z) : jsnum :=
  match x with
  | Some (Num z) => Num (z + n)
  | Some NaN | None => NaN
  end.

(** [Math.min(x, n)]. *)
Definition Math_min (x : jsnum) (n : Z) : jsnum :=
  match x with
  | Num z => Num (Z.min z n)
  | NaN => NaN
  end.

(** Truthiness of a value ([if (v)], [v && ...]). *)
Definition truthy (v : jsval) : bool :=
  match v with
  | JUndefined | JNull => false
  | JBool b => b
  | JNum q => negb (Qnum q =? 0)
  | JStr s => negb (String.eqb s "")
  | JArr _ | JObj _ => true
  end.

(** Own property of an object literal. *)
Fixpoint own_property (name : string) (properties : list (string * jsval))
  : option jsval :=
  match properties with
  | [] => None
  | (k, v) :: rest => if String.eqb k name then Some v else own_property name rest
  end.

(** [v.name] for the names the source reads ([success], [data], [content],
    [text]); no built-in prototype defines any of them, so only objects
    can hold them.  [None]: a [TypeError] is thrown ([v] is [null] or
    [undefined]). *)
Definition get_prop (v : jsval) (name : string) : option jsval :=
  match v with
  | JUndefined | JNull => None
  | JObj properties => Some (default JUndefined (own_property name properties))
  | _ => Some JUndefined
  end.

(** [v[0]]. *)
Definition get_index0 (v : jsval) : option jsval :=
  match v with
  | JUndefined | JNull => None
  | JObj properties => Some (default JUndefined (own_property "0" properties))
  | JArr elements => Some (default JUndefined (head elements))
  | JStr (String c _) => Some (JStr (String c ""))
  | _ => Some JUndefined
  end.

(** ** Strings *)

(** [s.includes(sub)]. *)
Fixpoint includes (s sub : string) : bool :=
  String.prefix sub s
  || match s with
     | EmptyString => false
     | String _ rest => includes rest sub
     end.

(** [s.slice(0, -2)]: [s] without its last two characters. *)
Definition slice_0_minus2 (s : string) : string :=
  String.substring 0 (String.length s - 2)%nat s.

(** [s.indexOf(c)] for a one-character string [c]; [-1] when absent. *)
Fixpoint indexOf (c : ascii) (s : string) : Z :=
  match s with
  | EmptyString => -1
  | String a rest =>
      if Ascii.eqb a c then 0
      else let i := indexOf c rest in if i <? 0 then -1 else i + 1
  end.

(** [s.lastIndexOf(c)]; [-1] when absent. *)
Fixpoint lastIndexOf (c : ascii) (s : string) : Z :=
  match s with
  | EmptyString => -1
  | String a rest =>
      let i := lastIndexOf c rest in
      if 0 <=? i then i + 1 else if Ascii.eqb a c then 0 else -1
  end.

(** [s.substring(a, b)]: both indices are clamped to [0 .. length] and
    swapped when [a > b]. *)
Definition js_substring (s : string) (a b : Z) : string :=
  let len := Z.of_nat (String.length s) in
  let a := Z.min (Z.max a 0) len in
  let b := Z.min (Z.max b 0) len in
  let lo := Z.min a b in
  let hi := Z.max a b in
  String.substring (Z.to_nat lo) (Z.to_nat (hi - lo)) s.

(** [content.match(/\{[\s\S]*\}/)]: the text from the first opening brace
    to the last closing brace after it ([jsonMatch[0]]), or [None] for
    [null]. *)
Definition match_braces (content : string) : option string :=
  let i := indexOf "{" content in
  let j := lastIndexOf "}" content in
  if (0 <=? i) && (i <? j) then Some (js_substring content i (j + 1)) else None.

(** ** Lengths of text *)

(** A text is held as its UTF-8 bytes, one byte per character of a Rocq
    string, while JavaScript measures a string in UTF-16 code units.  The
    code points of a text: [pending] continuation bytes are still awaited
    for the code point whose leading bits are [acc]. *)
Fixpoint codePointsFrom (pending : nat) (acc : N) (s : string) : list N :=
  match s with
  | EmptyString => []
  | String c rest =>
      let b := N_of_ascii c in
      match pending with
      | O =>
          if (b <? 128)%N then b :: codePointsFrom 0 0%N rest
          else if (b <? 224)%N then codePointsFrom 1 (b mod 32)%N rest
          else if (b <? 240)%N then codePointsFrom 2 (b mod 16)%N rest
          else codePointsFrom 3 (b mod 8)%N rest
      | S O => (acc * 64 + b mod 64)%N :: codePointsFrom 0 0%N rest
      | S n => codePointsFrom n (acc * 64 + b mod 64)%N rest
      end
  end.

(** The code units of one code point: itself, or a surrogate pair from
    [U+10000] on. *)
Definition codeUnits (cp : N) : list N :=
  if (cp <? 65536)%N then [cp]
  else [ (55296 + (cp - 65536) / 1024)%N; (56320 + (cp - 65536) mod 1024)%N ].

(** The UTF-16 code units of a text. *)
Definition utf16 (s : string) : list N :=
  codePointsFrom 0 0%N s ≫= codeUnits.

(** [s.length]. *)
Definition js_length (s : string) : nat := length (utf16 s).

(** ** The host platform *)

Class JSHost : Type := {
  (** [String.prototype.toLowerCase]. *)
  toLowerCase : string -> string;
  (** [JSON.parse]; [None] when it throws. *)
  JSON_parse : string -> option jsval;
  (** The string under which a value is looked up when it is used as a
      property key ([obj[v]]). *)
  ToPropertyKey : jsval -> string
}.

(** ** Scorer *)

Definition PREDEFINED_KEYWORDS : list string :=
  [ "beach"; "mountain"; "island"; "city"; "adventure"; "cultural";
    "historical"; "tropical"; "winter"; "summer"; "family"; "romantic";
    "budget"; "luxury"; "food"; "nightlife"; "nature"; "photography" ].

(** The score the [forEach] of [fallbackScoring] stores for one keyword. *)
Definition baseScore (queryLower keyword : string) : Z :=
  if includes queryLower keyword then 9
  else if includes queryLower (slice_0_minus2 keyword) then 7
  else 1.

(** [vocabulary.forEach(keyword => { scores[keyword] = ... })] on an empty
    [scores].  A keyword is an ordinary property name, so that the
    assignment creates or overwrites an own property. *)
Definition baseScores (vocabulary : list string) (queryLower : string)
  : gmap string jsnum :=
  foldl (fun scores keyword => <[keyword := Num (baseScore queryLower keyword)]> scores)
        ∅ vocabulary.

(** [scores[key] += n]. *)
Definition add_assign (key : string) (n : Z) (scores : gmap string jsnum)
  : gmap string jsnum :=
  <[key := js_add (scores !! key) n]> scores.

(** The four [if] statements under "Additional heuristics". *)
Definition phraseBonuses (queryLower : string) (scores : gmap string jsnum)
  : gmap string jsnum :=
  let scores :=
    if includes queryLower "vacation" || includes queryLower "holiday"
    then add_assign "tropical" 2 (add_assign "beach" 2 scores)
    else scores in
  let scores :=
    if includes queryLower "hiking" || includes queryLower "trek"
    then add_assign "nature" 3 (add_assign "adventure" 3 (add_assign "mountain" 3 scores))
    else scores in
  let scores :=
    if includes queryLower "resort" || includes queryLower "spa"
    then add_assign "romantic" 2 (add_assign "luxury" 3 scores)
    else scores in
  let scores :=
    if includes queryLower "museum" || includes queryLower "history"
    then add_assign "city" 2 (add_assign "cultural" 3 (add_assign "historical" 3 scores))
    else scores in
  scores.

(** [Object.keys(scores).forEach(key => scores[key] = Math.min(scores[key], 10))]. *)
Definition capScores (scores : gmap string jsnum) : gmap string jsnum :=
  (fun v => Math_min v 10) <$> scores.

(** [fallbackScoring] with the vocabulary it iterates over made a
    parameter. *)
Definition fallbackScoringOver `{JSHost} (vocabulary : list string) (query : string)
  : gmap string jsnum :=
  let queryLower := toLowerCase query in
  capScores (phraseBonuses queryLower (baseScores vocabulary queryLower)).

Definition fallbackScoring `{JSHost} (query : string) : gmap string jsnum :=
  fallbackScoringOver PREDEFINED_KEYWORDS query.

(** What [analyzeQueryWithClaude] resolves to: the object built by
    [fallbackScoring], or whatever [JSON.parse] made of the collaborator's
    text. *)
Inductive KeywordScores : Type :=
| Scored (scores : gmap string jsnum)
| Parsed (v : jsval).

(** [text.substring(text.indexOf('(') + 1, text.lastIndexOf(')'))]. *)
Definition jsonp_payload (text : string) : string :=
  let jsonStart := indexOf "(" text + 1 in
  let jsonEnd := lastIndexOf ")" text in
  js_substring text jsonStart jsonEnd.

(** The inner [try] block of [analyzeQueryWithClaude]; [None] when it
    throws (a [TypeError] on the way to [content], the explicit
    [throw new Error], or [JSON.parse]). *)
Definition extractScores `{JSHost} (query : string) (data : jsval)
  : option KeywordScores :=
  success ← get_prop data "success";
  if negb (truthy success) then None else
  inner ← get_prop data "data";
  if negb (truthy inner) then None else
  contents ← get_prop inner "content";
  if negb (truthy contents) then None else
  first ← get_index0 contents;
  text ← get_prop first "text";
  match text with
  | JStr content =>
      match match_braces content with
      | Some jsonMatch => Parsed <$> JSON_parse jsonMatch
      | None => Some (Scored (fallbackScoring query))
      end
  | _ => None
  end.

(** [analyzeQueryWithClaude].  [response] is the body text the request
    resolved to, or [None] when building or sending the request threw. *)
Definition analyzeQueryWithClaude `{JSHost} (response : option string) (query : string)
  : KeywordScores :=
  match response with
  | None => Scored (fallbackScoring query)
  | Some text =>
      match JSON_parse (jsonp_payload text) with
      | None => Scored (fallbackScoring query)
      | Some data =>
          match extractScores query data with
          | Some keywordScores => keywordScores
          | None => Scored (fallbackScoring query)
          end
      end
  end.

(** ** Catalog load *)

(** A record of the catalog source ([response.destinations]); an optional
    field is [None] when the record lacks it. *)
Record RawDestination : Type := {
  DestinationID : string;
  Name : string;
  Country : option string;
  Keywords : option string;
  ImageURL : option string;
  Description : option string;
  Region : option string;
  Icon : option string
}.

(** An element of [DESTINATIONS].  The display fields are [None] where the
    object literal has no such property. *)
Record Destination : Type := {
  d_id : string;
  d_name : string;
  keywords : jsval;
  d_image : option string;
  d_description : option string;
  d_region : option string;
  d_icon : option string
}.

(** Truthiness of an optional string field. *)
Definition field_truthy (field : option string) : bool :=
  match field with
  | Some s => negb (String.eqb s "")
  | None => false
  end.

(** [field || fallback]. *)
Definition field_or (field : option string) (fallback : string) : string :=
  match field with
  | Some s => if String.eqb s "" then fallback else s
  | None => fallback
  end.

(** The callback of [response.destinations.map]. *)
Definition fromDatabase `{JSHost} (dest : RawDestination) : Destination :=
  let keywords := JArr [] in
  let keywords :=
    if field_truthy (Keywords dest) then
      match JSON_parse (default "" (Keywords dest)) with
      | Some parsed => parsed
      | None => keywords
      end
    else keywords in
  {| d_id := DestinationID dest;
     d_name := Name dest +:+
               (if field_truthy (Country dest)
                then ", " +:+ default "" (Country dest) else "");
     keywords := keywords;
     d_image := Some (field_or (ImageURL dest) "");
     d_description := Some (field_or (Description dest) "");
     d_region := Some (field_or (Region dest) "");
     d_icon := Some (field_or (Icon dest) "fa-map-marker-alt") |}.

Definition builtin (id name : string) (kws : list string) (icon : string)
  : Destination :=
  {| d_id := id; d_name := name; keywords := JArr (JStr <$> kws);
     d_image := None; d_description := None; d_region := None;
     d_icon := Some icon |}.

(** The literal both failure branches assign to [DESTINATIONS]. *)
Definition DEFAULT_DESTINATIONS : list Destination :=
  [ builtin "D-001" "Bali, Indonesia"
      ["beach"; "island"; "tropical"; "cultural"; "summer"; "photography"]
      "fa-umbrella-beach";
    builtin "D-002" "Patagonia, Chile"
      ["mountain"; "adventure"; "nature"; "photography"] "fa-mountain";
    builtin "D-003" "Kyoto, Japan"
      ["cultural"; "historical"; "city"; "photography"; "food"] "fa-landmark";
    builtin "D-004" "Lisbon, Portugal"
      ["city"; "historical"; "food"; "summer"; "budget"] "fa-city";
    builtin "D-005" "Santorini, Greece"
      ["island"; "beach"; "romantic"; "summer"; "photography"] "fa-water" ].

(** What [API.getAllDestinations()] resolved to. *)
Record ApiResponse : Type := {
  success : bool;
  destinations : option (list RawDestination)
}.

(** The value of [DESTINATIONS] after the start-up [try] block; [None]:
    the call threw. *)
Definition loadDestinations `{JSHost} (response : option ApiResponse)
  : list Destination :=
  match response with
  | Some r =>
      match success r, destinations r with
      | true, Some dests => fromDatabase <$> dests
      | _, _ => DEFAULT_DESTINATIONS
      end
  | None => DEFAULT_DESTINATIONS
  end.

(** ** Ranker *)

(** An element of [matchedKeywords]. *)
Record MatchedKeyword : Type := {
  keyword : jsval;
  score : Z
}.

(** An element of [results]. *)
Record MatchResult : Type := {
  r_id : string;
  r_name : string;
  r_score : Z;
  matchedKeywords : list MatchedKeyword;
  r_image : option string;
  r_description : option string;
  r_region : option string;
  r_icon : option string
}.

(** [l.sort((a, b) => key(b) - key(a))]: the sort by decreasing key,
    stable as the language requires of [Array.prototype.sort] (ECMAScript
    2019).  An element is put in front of the first one whose key is not
    greater, so it stays ahead of the later elements with its own key. *)
Section StableSort.
Context {A : Type} (key : A -> Z).

Fixpoint insert_desc (x : A) (l : list A) : list A :=
  match l with
  | [] => [x]
  | y :: rest => if key x <? key y then y :: insert_desc x rest else x :: l
  end.

Definition sort_desc (l : list A) : list A := foldr insert_desc [] l.
End StableSort.

(** The callback of the inner [destination.keywords.forEach], for the
    bar [threshold] ([5] in the first pass, [3] in the second), on the
    pair of [totalScore] and [matchedKeywords]. *)
Definition tallyStep `{JSHost} (threshold : Z) (keywordScores : gmap string jsnum)
    (tally : Z * list MatchedKeyword) (kw : jsval) : Z * list MatchedKeyword :=
  let '(totalScore, matched) := tally in
  match keywordScores !! ToPropertyKey kw with
  | Some (Num s) =>
      if negb (s =? 0) && (threshold <? s)
      then (totalScore + s, matched ++ [ {| keyword := kw; score := s |} ])
      else (totalScore, matched)
  | _ => (totalScore, matched)
  end.

(** [totalScore] and [matchedKeywords] after the loop. *)
Definition tallyKeywords `{JSHost} (threshold : Z)
    (keywordScores : gmap string jsnum) (kws : list jsval)
  : Z * list MatchedKeyword :=
  foldl (tallyStep threshold keywordScores) (0, []) kws.

(** [if (totalScore > 0) results.push({...})]: the pushed object, if any. *)
Definition pushResult (destination : Destination) (tally : Z * list MatchedKeyword)
  : option MatchResult :=
  let '(totalScore, matched) := tally in
  if 0 <? totalScore then
    Some {| r_id := d_id destination;
            r_name := d_name destination;
            r_score := totalScore;
            matchedKeywords := take 3 (sort_desc score matched);
            r_image := d_image destination;
            r_description := d_description destination;
            r_region := d_region destination;
            r_icon := d_icon destination |}
  else None.

(** The callback of the first [DESTINATIONS.forEach]. *)
Definition firstPassEntry `{JSHost} (keywordScores : gmap string jsnum)
    (destination : Destination) : option MatchResult :=
  match keywords destination with
  | JArr (kw :: kws) => pushResult destination (tallyKeywords 5 keywordScores (kw :: kws))
  | _ => None
  end.

(** The callback of the second [DESTINATIONS.forEach]. *)
Definition secondPassEntry `{JSHost} (keywordScores : gmap string jsnum)
    (destination : Destination) : option MatchResult :=
  match keywords destination with
  | JArr kws => pushResult destination (tallyKeywords 3 keywordScores kws)
  | _ => None
  end.

(** [findMatchingDestinations], with the catalog it reads made a
    parameter.  [keywordScores] is a score object whose values are
    integers (or [NaN]), as [fallbackScoring] builds it and as the
    collaborator is asked to return it. *)
Definition findMatchingDestinations `{JSHost} (DESTINATIONS : list Destination)
    (keywordScores : gmap string jsnum) : list MatchResult :=
  let results := omap (firstPassEntry keywordScores) DESTINATIONS in
  let results :=
    if (length results =? 0)%nat
    then results ++ omap (secondPassEntry keywordScores) DESTINATIONS
    else results in
  sort_desc r_score results.

(** The bar of the loop that filled [results]: the second one runs, with
    [3], exactly when the first one, with [5], pushed nothing. *)
Definition activeThreshold `{JSHost} (DESTINATIONS : list Destination)
    (keywordScores : gmap string jsnum) : Z :=
  if decide (omap (firstPassEntry keywordScores) DESTINATIONS = []) then 3 else 5.

(** ** The ranker as the specification words it *)

(** The keywords of an entity: the elements of its keyword array. *)
Definition keywordList (destination : Destination) : list jsval :=
  match keywords destination with
  | JArr kws => kws
  | _ => []
  end.

(** [scores[keyword]] as a number, when it is one. *)
Definition scoreOf `{JSHost} (scores : gmap string jsnum) (kw : jsval) : option Z :=
  match scores !! ToPropertyKey kw with
  | Some (Num s) => Some s
  | _ => None
  end.

(** The pair [(keyword, score)] of a keyword with
    [scores[keyword] > threshold]. *)
Definition contribution `{JSHost} (threshold : Z) (scores : gmap string jsnum)
    (kw : jsval) : option MatchedKeyword :=
  match scoreOf scores kw with
  | Some s => if threshold <? s then Some {| keyword := kw; score := s |} else None
  | None => None
  end.

(** The contributing pairs of an entity, in keyword order. *)
Definition contributing `{JSHost} (threshold : Z) (scores : gmap string jsnum)
    (destination : Destination) : list MatchedKeyword :=
  omap (contribution threshold scores) (keywordList destination).

Definition sumScores (pairs : list MatchedKeyword) : Z :=
  foldr (fun p acc => score p + acc) 0 pairs.

(** The per-entity computation: the total over every contributing pair,
    no result for a zero total, the three best pairs kept. *)
Definition rankEntity `{JSHost} (threshold : Z) (scores : gmap string jsnum)
    (destination : Destination) : option MatchResult :=
  let pairs := contributing threshold scores destination in
  if sumScores pairs =? 0 then None
  else Some {| r_id := d_id destination;
               r_name := d_name destination;
               r_score := sumScores pairs;
               matchedKeywords := take 3 (sort_desc score pairs);
               r_image := d_image destination;
               r_description := d_description destination;
               r_region := d_region destination;
               r_icon := d_icon destination |}.

(** One pass over the catalog, in catalog order. *)
Definition rankPass `{JSHost} (threshold : Z) (scores : gmap string jsnum)
    (catalog : list Destination) : list MatchResult :=
  omap (rankEntity threshold scores) catalog.

(** [x] stands before [y] in [l]. *)
Definition Before {A : Type} (x y : A) (l : list A) : Prop :=
  exists l1 l2 l3, l = l1 ++ x :: l2 ++ y :: l3.

(** [a] is ranked ahead of [b]: a result for [a] stands before a result
    for [b]. *)
Definition rankedBefore (a b : string) (results : list MatchResult) : Prop :=
  exists ra rb, Before ra rb results /\ r_id ra = a /\ r_id rb = b.

(** Results ordered by decreasing total. *)
Definition byScoreDescending (results : list MatchResult) : Prop :=
  StronglySorted (fun a b => r_score b <= r_score a) results.

(** Pairs ordered by decreasing score. *)
Definition pairsDescending (pairs : list MatchedKeyword) : Prop :=
  StronglySorted (fun a b => score b <= score a) pairs.

(** ** The scorer as the specification words it *)

(** [sub] occurs in [s] as a substring. *)
Definition occursIn (sub s : string) : Prop :=
  exists pre post, s = pre +:+ sub +:+ post.

(** [short] is [s] with its last two characters removed (all of them when
    [s] has at most two). *)
Definition truncatedBy2 (s short : string) : Prop :=
  (exists a b, s = short +:+ String a (String b ""))
  \/ ((String.length s <= 2)%nat /\ short = "").

(** The phrase rules: the phrases that trigger a rule, and what it adds to
    which keyword. *)
Definition bonusRules : list (list string * list (string * Z)) :=
  [ (["vacation"; "holiday"], [("beach", 2); ("tropical", 2)]);
    (["hiking"; "trek"], [("mountain", 3); ("adventure", 3); ("nature", 3)]);
    (["resort"; "spa"], [("luxury", 3); ("romantic", 2)]);
    (["museum"; "history"], [("historical", 3); ("cultural", 3); ("city", 2)]) ].

(** The keywords the rules add to. *)
Definition bonusKeywords : list string :=
  concat (map (fun rule : list string * list (string * Z) => map fst (snd rule))
              bonusRules).

(** What one rule adds to [kw]: its amount for [kw] when at least one of
    its phrases occurs in the query, however many do and however often. *)
Definition ruleBonus (queryLower kw : string)
    (rule : list string * list (string * Z)) : Z :=
  if existsb (includes queryLower) (fst rule)
  then foldr (fun adj acc => (if decide (fst adj = kw) then snd adj else 0) + acc)
             0 (snd rule)
  else 0.

(** What the rules add to [kw] in total. *)
Definition phraseBonus (queryLower kw : string) : Z :=
  foldr (fun rule acc => ruleBonus queryLower kw rule + acc) 0 bonusRules.

(** The number a result of the scorer holds for [kw]. *)
Definition scoreAt (keywordScores : KeywordScores) (kw : string) : option Q :=
  match keywordScores with
  | Scored scores =>
      match scores !! kw with
      | Some (Num z) => Some (inject_Z z)
      | _ => None
      end
  | Parsed (JObj properties) =>
      match own_property kw properties with
      | Some (JNum q) => Some q
      | _ => None
      end
  | Parsed _ => None
  end.

(** Every keyword of [vocabulary] has a score between 0 and 10. *)
Definition covers (vocabulary : list string) (keywordScores : KeywordScores) : Prop :=
  Forall (fun kw => exists q, scoreAt keywordScores kw = Some q /\ (0 <= q)%Q /\ (q <= 10)%Q)
         vocabulary.

(** ** Rendering the results *)

(** The object literal [iconMap] of [getIconForKeyword]. *)
Definition iconMap : list (string * string) :=
  [ ("beach", "fa-umbrella-beach"); ("mountain", "fa-mountain");
    ("island", "fa-island-tropical"); ("city", "fa-city");
    ("adventure", "fa-hiking"); ("cultural", "fa-landmark");
    ("historical", "fa-monument"); ("tropical", "fa-sun");
    ("winter", "fa-snowflake"); ("summer", "fa-sun");
    ("family", "fa-users"); ("romantic", "fa-heart");
    ("budget", "fa-wallet"); ("luxury", "fa-gem");
    ("food", "fa-utensils"); ("nightlife", "fa-cocktail");
    ("nature", "fa-leaf"); ("photography", "fa-camera") ].

(** [iconMap[key]], for a key that names no member every object
    inherits. *)
Definition iconMap_lookup (key : string) : option string :=
  snd <$> find (fun entry => String.eqb (fst entry) key) iconMap.

(** [getIconForKeyword]: [iconMap[keyword] || 'fa-map-marker-alt']. *)
Definition getIconForKeyword `{JSHost} (kw : jsval) : string :=
  field_or (iconMap_lookup (ToPropertyKey kw)) "fa-map-marker-alt".

(** [destination.matchedKeywords[0]?.keyword || 'city']. *)
Definition topKeywordOf (destination : MatchResult) : jsval :=
  match matchedKeywords destination with
  | first :: _ => if truthy (keyword first) then keyword first else JStr "city"
  | [] => JStr "city"
  end.

(** [destData.icon || getIconForKeyword(topKeyword)]. *)
Definition resultIcon `{JSHost} (destination : MatchResult) : string :=
  if field_truthy (r_icon destination)
  then default "" (r_icon destination)
  else getIconForKeyword (topKeywordOf destination).

(** The description shown:
    [description.substring(0, 60)] followed by ['...'] when
    [description.length > 60], in UTF-16 code units. *)
Definition descriptionSnippet (description : string) : list N :=
  take 60 (utf16 description)
  ++ (if (60 <? js_length description)%nat then utf16 "..." else []).

(** A field that is rendered only when it is truthy. *)
Definition whenTruthy (field : option string) : option string :=
  if field_truthy field then field else None.

(** The children [displaySearchResults] appends to the results
    container, each with the values its markup is filled with. *)
Inductive PanelItem : Type :=
| ExplanationItem (keywords : list string)
| ResultItem (title icon : string) (snippet : option (list N))
             (matches : list jsval) (region image : option string)
| NoResultsItem.

(** The entries of the score object that the explanation names: sorted by
    decreasing score, those above 5 kept, cut to three. *)
Definition topEntries (entries : list (string * Z)) : list (string * Z) :=
  take 3 (filter (fun entry => 5 < snd entry) (sort_desc snd entries)).

(** [topKeywords]. *)
Definition topKeywords (entries : list (string * Z)) : list string :=
  fst <$> topEntries entries.

(** The item appended for one destination. *)
Definition renderResult `{JSHost} (destination : MatchResult) : PanelItem :=
  ResultItem (r_name destination) (resultIcon destination)
    (descriptionSnippet <$> whenTruthy (r_description destination))
    (keyword <$> matchedKeywords destination)
    (whenTruthy (r_region destination))
    (whenTruthy (r_image destination)).

(** [displaySearchResults]: the children of the results container after
    the call.  [entries] is [Object.entries(keywordScores)] for a score
    object with integer values. *)
Definition displaySearchResults `{JSHost} (destinations : list MatchResult)
    (query : string) (entries : list (string * Z)) : list PanelItem :=
  let searchResults := [] in
  let searchResults :=
    if (0 <? length (topKeywords entries))%nat
    then searchResults ++ [ExplanationItem (topKeywords entries)]
    else searchResults in
  if (0 <? length destinations)%nat
  then searchResults ++ (renderResult <$> take 5 destinations)
  else searchResults ++ [NoResultsItem].

(** [Object.entries] of the object [fallbackScoring] returns: its keys in
    the order they were assigned, that of [PREDEFINED_KEYWORDS]. *)
Definition fallbackEntries `{JSHost} (query : string) : list (string * Z) :=
  omap (fun kw => match fallbackScoring query !! kw with
                  | Some (Num z) => Some (kw, z)
                  | _ => None
                  end)
       PREDEFINED_KEYWORDS.

(** What [performSmartSearch] hands to [displaySearchResults], and so the
    children of the results container two and a half seconds later, when
    [analyzeQueryWithClaude] resolves to the fallback scores. *)
Definition fallbackSearchPanel `{JSHost} (catalog : list Destination)
    (query : string) : list PanelItem :=
  let keywordScores := fallbackScoring query in
  let matchedDestinations := findMatchingDestinations catalog keywordScores in
  displaySearchResults matchedDestinations query (fallbackEntries query).

(** ** Clicking a result *)

(** [name.split(',')[0]]: the text before the first comma. *)
Fixpoint beforeComma (name : string) : string :=
  match name with
  | EmptyString => EmptyString
  | String c rest => if Ascii.eqb c "," then EmptyString else String c (beforeComma rest)
  end.

(** The test of the loop over the trending items:
    [itemTitle && name.includes(itemTitle)
     || (itemTitle && itemTitle.includes(name.split(',')[0]))];
    [itemTitle] is [None] when the item has no heading. *)
Definition matchesTrendingItem (name : string) (itemTitle : option string) : bool :=
  (field_truthy itemTitle && includes name (default "" itemTitle))
  || (field_truthy itemTitle && includes (default "" itemTitle) (beforeComma name)).

(** The test of the loop over the location cards:
    [cardName && (name.includes(cardName)
                  || cardName.includes(name.split(',')[0]))]. *)
Definition matchesLocationCard (name : string) (cardName : option string) : bool :=
  field_truthy cardName
  && (includes name (default "" cardName)
      || includes (default "" cardName) (beforeComma name)).

(** ** The search input *)

(** What the listeners of the search bar act on: the query the pending
    debounce timeout will search for, the queries [performSmartSearch] was
    called with so far, and whether the results and the loading containers
    are displayed.  The events are those of the two listeners and of the
    timeout; what a search does to the containers once it has started is
    not among them. *)
Record SearchBar : Type := {
  searchTimeout : option string;
  searches : list string;
  resultsDisplayed : bool;
  loadingDisplayed : bool
}.

Inductive BarEvent : Type :=
| Typed (value : string)      (* an [input] event with this field value *)
| Elapsed                     (* the pending timeout, if any, fires *)
| ClickedOutside.             (* a click outside the search bar *)

Section SearchInput.
(** [String.prototype.trim]. *)
Context (trim : string -> string).

(** The [input] listener. *)
Definition onInput (value : string) (bar : SearchBar) : SearchBar :=
  let query := trim value in
  if (js_length query <? 2)%nat
  then {| searchTimeout := None; searches := searches bar;
          resultsDisplayed := false; loadingDisplayed := false |}
  else {| searchTimeout := Some query; searches := searches bar;
          resultsDisplayed := false; loadingDisplayed := loadingDisplayed bar |}.

(** The callback of [setTimeout]: it calls [performSmartSearch], which
    first displays the loading container. *)
Definition onTimeout (bar : SearchBar) : SearchBar :=
  match searchTimeout bar with
  | Some query =>
      {| searchTimeout := None; searches := searches bar ++ [query];
         resultsDisplayed := resultsDisplayed bar; loadingDisplayed := true |}
  | None => bar
  end.

(** The [click] listener of the document, for a click outside the bar. *)
Definition onClickOutside (bar : SearchBar) : SearchBar :=
  {| searchTimeout := searchTimeout bar; searches := searches bar;
     resultsDisplayed := false; loadingDisplayed := false |}.

Definition barStep (bar : SearchBar) (event : BarEvent) : SearchBar :=
  match event with
  | Typed value => onInput value bar
  | Elapsed => onTimeout bar
  | ClickedOutside => onClickOutside bar
  end.

Definition runBar (bar : SearchBar) (events : list BarEvent) : SearchBar :=
  foldl barStep bar events.

(** The queries that were left alone long enough: each value typed that
    is, once trimmed, at least two code units long and whose timeout fired
    before another value was typed.  [armed] is the query waiting when the
    events begin. *)
Fixpoint settledQueries (armed : option string) (events : list BarEvent)
  : list string :=
  match events with
  | [] => []
  | Typed value :: rest =>
      settledQueries
        (if (js_length (trim value) <? 2)%nat then None else Some (trim value))
        rest
  | Elapsed :: rest => option_list armed ++ settledQueries None rest
  | ClickedOutside :: rest => settledQueries armed rest
  end.
End SearchInput.

(** A search bar with nothing pending. *)
Definition idleBar : SearchBar :=
  {| searchTimeout := None; searches := [];
     resultsDisplayed := true; loadingDisplayed := false |}.

(** ** Notions used to state further properties *)

(** The character [c] occurs in [s]. *)
Definition hasChar (c : ascii) (s : string) : Prop :=
  occursIn (String c "") s.

(** The phrases that trigger a bonus rule. *)
Definition triggerPhrases : list string :=
  concat (map (fun rule : list string * list (string * Z) => fst rule) bonusRules).

(** ** A host for the examples *)

Definition ascii_lower (c : ascii) : ascii :=
  let n := nat_of_ascii c in
  if (65 <=? n)%nat && (n <=? 90)%nat then ascii_of_nat (n + 32) else c.

Fixpoint string_lower (s : string) : string :=
  match s with
  | EmptyString => EmptyString
  | String c rest => String (ascii_lower c) (string_lower rest)
  end.

(** The double quote character as a string. *)
Definition dq : string := String "034"%char "".

(** [name] between double quotes. *)
Definition quoted (name : string) : string := dq +:+ name +:+ dq.

(** The payload of a well-formed reply of the backend whose content text
    is the empty JSON object. *)
Definition reply_payload : string :=
  "{" +:+ quoted "success" +:+ ":true," +:+ quoted "data" +:+ ":{" +:+
  quoted "content" +:+ ":[{" +:+ quoted "text" +:+ ":" +:+ quoted "{}" +:+ "}]}}".

Definition reply_data : jsval :=
  JObj [ ("success", JBool true);
         ("data", JObj [ ("content", JArr [ JObj [ ("text", JStr "{}") ] ]) ]) ].

(** A host that agrees with the platform on the inputs of the examples:
    ASCII text is lower-cased, a string is its own property key, and
    [JSON.parse] is tabulated on three texts (of the other texts the
    examples use only ["beach, island"], which is not JSON). *)
Definition exampleHost : JSHost := {|
  toLowerCase := string_lower;
  JSON_parse text :=
    if String.eqb text reply_payload then Some reply_data
    else if String.eqb text "{}" then Some (JObj [])
    else if String.eqb text ("[" +:+ quoted "beach" +:+ "]") then Some (JArr [JStr "beach"])
    else None;
  ToPropertyKey v := match v with JStr s => s | _ => "" end
|}.

(** The two-entity catalog of the example in the specification. *)
Definition entityA : Destination := builtin "A" "A" ["beach"] "fa-water".
Definition entityB : Destination := builtin "B" "B" ["mountain"] "fa-mountain".
Definition exampleCatalog : list Destination := [entityA; entityB].

(** A score object in which every score is 4. *)
Definition allFour : gmap string jsnum :=
  <["beach" := Num 4]> (<["mountain" := Num 4]> ∅).

(** A score object that ranks [entityA] ahead of [entityB]. *)
Definition beachFirst : gmap string jsnum :=
  <["beach" := Num 8]> (<["mountain" := Num 7]> ∅).

(** A record of the catalog source whose keyword text is not JSON. *)
Definition brokenRecord : RawDestination :=
  {| DestinationID := "D-100"; Name := "Nowhere"; Country := None;
     Keywords := Some "beach, island"; ImageURL := None; Description := None;
     Region := None; Icon := None |}.

(** A record whose keyword text is a JSON list. *)
Definition soundRecord : RawDestination :=
  {| DestinationID := "D-101"; Name := "Goa"; Country := Some "India";
     Keywords := Some ("[" +:+ quoted "beach" +:+ "]"); ImageURL := None;
     Description := None; Region := None; Icon := None |}.

(** * Facts *)

(** ** Strings *)

Lemma prefix_spec sub : forall s,
  String.prefix sub s = true <-> exists post, s = sub +:+ post.
Proof.
  induction sub as [|a sub IH]; intros s; simpl.
  - split; [intros _; exists s; reflexivity | intros _; by destruct s].
  - destruct s as [|b s].
    + split; [done | intros [post Hpost]; discriminate].
    + simpl. destruct (ascii_dec a b) as [->|Hab].
      * rewrite IH. split; intros [post Hpost]; exists post.
        -- by rewrite Hpost.
        -- by injection Hpost.
      * split; [done | intros [post Hpost]; by injection Hpost].
Qed.

Lemma includes_prefix s sub : String.prefix sub s = true -> includes s sub = true.
Proof. destruct s; cbn [includes]; intros ->; done. Qed.

Lemma includes_cons c s sub : includes s sub = true -> includes (String c s) sub = true.
Proof. cbn [includes]. intros ->. apply orb_true_r. Qed.

(** [includes] decides occurrence as a substring. *)
Lemma includes_spec s sub : includes s sub = true <-> occursIn sub s.
Proof.
  split.
  - induction s as [|c rest IH]; cbn [includes]; rewrite orb_true_iff.
    + intros [Hp|?]; [|done]. apply prefix_spec in Hp as [post ->]. by exists "", post.
    + intros [Hp|Hr].
      * apply prefix_spec in Hp as [post ->]. by exists "", post.
      * destruct (IH Hr) as (pre & post & ->). by exists (String c pre), post.
  - intros (pre & post & ->). induction pre as [|c pre IH].
    + apply includes_prefix, prefix_spec. by exists post.
    + by apply includes_cons.
Qed.

Lemma includes_false s sub : includes s sub = false <-> ~ occursIn sub s.
Proof. rewrite <- includes_spec. by destruct (includes s sub). Qed.

Lemma length_app_string s t :
  String.length (s +:+ t) = (String.length s + String.length t)%nat.
Proof. induction s as [|c s IH]; [done|]. simpl. by rewrite IH. Qed.

Lemma slice_0_minus2_app t a b :
  slice_0_minus2 (t +:+ String a (String b "")) = t.
Proof.
  unfold slice_0_minus2.
  replace (String.length (t +:+ String a (String b "")) - 2)%nat
    with (String.length t).
  - induction t as [|c t IH]; [done|]. simpl. f_equal. exact IH.
  - rewrite length_app_string. simpl. lia.
Qed.

Lemma slice_0_minus2_short s :
  (String.length s <= 2)%nat -> slice_0_minus2 s = "".
Proof.
  unfold slice_0_minus2. intros Hlen.
  replace (String.length s - 2)%nat with 0%nat by lia. by destruct s.
Qed.

(** [slice_0_minus2] removes the last two characters. *)
Lemma slice_0_minus2_spec s : truncatedBy2 s (slice_0_minus2 s).
Proof.
  destruct (decide (String.length s <= 2)%nat) as [Hshort|Hlong].
  - right. split; [done | by apply slice_0_minus2_short].
  - left. assert (Hsplit : exists t a b, s = t +:+ String a (String b "")).
    { assert (Hlen : (2 <= String.length s)%nat) by lia. clear Hlong.
      induction s as [|c s IH]; simpl in Hlen; [lia|].
      destruct (decide (2 <= String.length s)%nat) as [Hge|Hlt].
      - destruct (IH Hge) as (t & a & b & ->). by exists (String c t), a, b.
      - destruct s as [|c1 [|c2 s2]]; simpl in Hlen, Hlt; [lia| |lia].
        by exists "", c, c1. }
    destruct Hsplit as (t & a & b & ->). exists a, b.
    by rewrite slice_0_minus2_app.
Qed.

(** ** The score object of the fallback scorer *)

Lemma baseScore_cases queryLower kw :
  baseScore queryLower kw = 9 \/ baseScore queryLower kw = 7
  \/ baseScore queryLower kw = 1.
Proof. unfold baseScore. repeat case_match; auto. Qed.

Lemma baseScores_fold queryLower vocabulary (m : gmap string jsnum) kw :
  foldl (fun scores keyword => <[keyword := Num (baseScore queryLower keyword)]> scores)
        m vocabulary !! kw
  = if decide (kw ∈ vocabulary) then Some (Num (baseScore queryLower kw)) else m !! kw.
Proof.
  revert m. induction vocabulary as [|k vocabulary IH]; intros m; cbn [foldl].
  - destruct (decide (kw ∈ [])) as [Hin|]; [|done]. by apply elem_of_nil in Hin.
  - rewrite IH. destruct (decide (kw ∈ vocabulary)) as [Hin|Hnotin].
    + rewrite decide_True; [done | by apply elem_of_cons; right].
    + destruct (decide (kw = k)) as [->|Hne].
      * rewrite decide_True by (by apply elem_of_cons; left).
        by rewrite lookup_insert_eq.
      * rewrite decide_False by (by intros [?|?]%elem_of_cons).
        by rewrite lookup_insert_ne.
Qed.

Lemma baseScores_lookup vocabulary queryLower kw :
  baseScores vocabulary queryLower !! kw
  = if decide (kw ∈ vocabulary) then Some (Num (baseScore queryLower kw)) else None.
Proof. unfold baseScores. by rewrite baseScores_fold, lookup_empty. Qed.

Lemma add_assign_present key n (m : gmap string jsnum) kw z :
  m !! kw = Some (Num z) ->
  add_assign key n m !! kw = Some (Num (z + (if decide (key = kw) then n else 0))).
Proof.
  intros Hkw. unfold add_assign. destruct (decide (key = kw)) as [->|Hne].
  - by rewrite lookup_insert_eq, Hkw.
  - rewrite lookup_insert_ne by done. rewrite Hkw. do 2 f_equal. lia.
Qed.

Lemma add_assign_other key n (m : gmap string jsnum) kw :
  key ≠ kw -> add_assign key n m !! kw = m !! kw.
Proof. intros Hne. unfold add_assign. by rewrite lookup_insert_ne. Qed.

Lemma add_assign_missing key n (m : gmap string jsnum) :
  m !! key = None -> add_assign key n m !! key = Some NaN.
Proof. intros Hkey. unfold add_assign. by rewrite lookup_insert_eq, Hkey. Qed.

(** Reads a keyword that is present through a chain of [add_assign]. *)
Ltac read_through_bonuses :=
  first [ eassumption | eapply add_assign_present; read_through_bonuses ].

Lemma phraseBonuses_present queryLower (m : gmap string jsnum) kw z :
  m !! kw = Some (Num z) ->
  phraseBonuses queryLower m !! kw = Some (Num (z + phraseBonus queryLower kw)).
Proof.
  intros Hkw. unfold phraseBonuses, phraseBonus, bonusRules, ruleBonus.
  cbn [foldr fst snd existsb]. rewrite !orb_false_r.
  destruct (includes queryLower "vacation" || includes queryLower "holiday");
  destruct (includes queryLower "hiking" || includes queryLower "trek");
  destruct (includes queryLower "resort" || includes queryLower "spa");
  destruct (includes queryLower "museum" || includes queryLower "history");
  (etrans; [read_through_bonuses | do 2 f_equal; lia]).
Qed.

Lemma phraseBonuses_absent queryLower (m : gmap string jsnum) kw :
  kw ∉ bonusKeywords ->
  phraseBonuses queryLower m !! kw = m !! kw.
Proof.
  intros Hnotin. unfold phraseBonuses.
  assert (Hall : Forall (fun key => key ≠ kw) bonusKeywords).
  { apply Forall_forall. intros key Hkey ->. by apply Hnotin. }
  unfold bonusKeywords, bonusRules in Hall. cbn in Hall.
  repeat (apply Forall_cons in Hall as [? Hall]).
  repeat case_match; rewrite ?add_assign_other by done; done.
Qed.

Lemma adjustments_nonneg kw (adjs : list (string * Z)) :
  Forall (fun adj => 0 <= adj.2) adjs ->
  0 <= foldr (fun adj acc => (if decide (adj.1 = kw) then adj.2 else 0) + acc) 0 adjs.
Proof.
  induction 1 as [|adj adjs Hadj _ IH]; simpl; [lia|]. case_decide; lia.
Qed.

Lemma phraseBonus_nonneg queryLower kw : 0 <= phraseBonus queryLower kw.
Proof.
  unfold phraseBonus.
  assert (Hrules : Forall (fun rule : list string * list (string * Z) =>
                             Forall (fun adj => 0 <= adj.2) rule.2) bonusRules).
  { unfold bonusRules. repeat constructor; simpl; lia. }
  induction Hrules as [|rule rules Hrule _ IH]; simpl; [lia|].
  unfold ruleBonus at 1. case_match; [|lia].
  pose proof (adjustments_nonneg kw _ Hrule). lia.
Qed.

Lemma bonusKeywords_predefined : bonusKeywords ⊆ PREDEFINED_KEYWORDS.
Proof.
  assert (Hall : Forall (fun kw => kw ∈ PREDEFINED_KEYWORDS) bonusKeywords).
  { eapply bool_decide_unpack. vm_compute. exact I. }
  intros kw Hkw. by eapply Forall_forall in Hall.
Qed.

Section FallbackFacts.
Context `{JSHost}.

Lemma fallbackScoringOver_in vocabulary query kw :
  kw ∈ vocabulary ->
  fallbackScoringOver vocabulary query !! kw
  = Some (Num (Z.min (baseScore (toLowerCase query) kw
                      + phraseBonus (toLowerCase query) kw) 10)).
Proof.
  intros Hin. unfold fallbackScoringOver, capScores. rewrite lookup_fmap.
  erewrite phraseBonuses_present; [done|].
  rewrite baseScores_lookup. by rewrite decide_True.
Qed.

Lemma fallbackScoringOver_notin vocabulary query kw :
  kw ∉ vocabulary -> kw ∉ bonusKeywords ->
  fallbackScoringOver vocabulary query !! kw = None.
Proof.
  intros Hvoc Hbonus. unfold fallbackScoringOver, capScores. rewrite lookup_fmap.
  rewrite phraseBonuses_absent by done.
  rewrite baseScores_lookup. by rewrite decide_False.
Qed.

Lemma fallbackScoringOver_lookup vocabulary query kw :
  bonusKeywords ⊆ vocabulary ->
  fallbackScoringOver vocabulary query !! kw
  = if decide (kw ∈ vocabulary)
    then Some (Num (Z.min (baseScore (toLowerCase query) kw
                           + phraseBonus (toLowerCase query) kw) 10))
    else None.
Proof.
  intros Hsub. case_decide as Hin.
  - by apply fallbackScoringOver_in.
  - apply fallbackScoringOver_notin; [done | intros Hbonus; by apply Hin, Hsub].
Qed.

Lemma fallback_score_range query kw :
  1 <= Z.min (baseScore (toLowerCase query) kw
              + phraseBonus (toLowerCase query) kw) 10 <= 10.
Proof.
  pose proof (phraseBonus_nonneg (toLowerCase query) kw).
  destruct (baseScore_cases (toLowerCase query) kw) as [->|[->| ->]]; lia.
Qed.
End FallbackFacts.

(** ** Claims about the scorer *)



(** C5: every score the fallback scorer returns is the base score plus the
    bonuses of the triggered rules (each rule counted once), cut at 10; it
    lies between 1 and 10, the base score being at least 1 and no bonus
    negative. *)
Theorem C5_fallback_capped `{JSHost} (query kw : string) (v : jsnum) :
  fallbackScoring query !! kw = Some v ->
  exists z,
    v = Num z
    /\ z = Z.min (baseScore (toLowerCase query) kw
                  + phraseBonus (toLowerCase query) kw) 10
    /\ 1 <= baseScore (toLowerCase query) kw
    /\ 0 <= phraseBonus (toLowerCase query) kw
    /\ 1 <= z /\ z <= 10.
Proof.
  unfold fallbackScoring.
  rewrite (fallbackScoringOver_lookup _ _ _ bonusKeywords_predefined).
  case_decide; [|done]. intros [= <-]. eexists. split; [done|]. split; [done|].
  pose proof (fallback_score_range query kw).
  pose proof (phraseBonus_nonneg (toLowerCase query) kw).
  destruct (baseScore_cases (toLowerCase query) kw) as [Hb|[Hb|Hb]]; rewrite Hb; lia.
Qed.

Lemma C5_fallback_capped_witness :
  exists z,
    Num 10 = Num z
    /\ z = Z.min (baseScore (string_lower "I want a beach vacation") "beach"
                  + phraseBonus (string_lower "I want a beach vacation") "beach") 10
    /\ 1 <= baseScore (string_lower "I want a beach vacation") "beach"
    /\ 0 <= phraseBonus (string_lower "I want a beach vacation") "beach"
    /\ 1 <= z /\ z <= 10.
Proof.
  apply (@C5_fallback_capped exampleHost "I want a beach vacation" "beach" (Num 10)).
  vm_compute. reflexivity.
Defined.

(** Both phrases of the fourth rule occur: its bonus is added once. *)
Example fallback_museum_history :
  (@fallbackScoring exampleHost "museum history") !! "historical" = Some (Num 4)
  /\ (@fallbackScoring exampleHost "museum history") !! "city" = Some (Num 3).
Proof. split; vm_compute; reflexivity. Qed.

(** C6: the vocabulary [fallbackScoring] iterates over is the constant
    [PREDEFINED_KEYWORDS], which holds every keyword a phrase rule adds to,
    so that no adjustment meets a missing keyword.  The adjustments create
    no entry: a keyword the base scoring did not include has none after
    them either.  The object returned has an entry for exactly the
    keywords of the vocabulary, and every value is an integer. *)
Theorem C6_bonus_within_vocabulary `{JSHost} (query kw : string) :
  Forall (fun key => key ∈ PREDEFINED_KEYWORDS) bonusKeywords
  /\ (baseScores PREDEFINED_KEYWORDS (toLowerCase query) !! kw = None ->
      phraseBonuses (toLowerCase query)
        (baseScores PREDEFINED_KEYWORDS (toLowerCase query)) !! kw = None)
  /\ (is_Some (fallbackScoring query !! kw) <-> kw ∈ PREDEFINED_KEYWORDS)
  /\ (forall v, fallbackScoring query !! kw = Some v -> exists z, v = Num z).
Proof.
  split_and!.
  - apply Forall_forall. intros key Hkey. by apply bonusKeywords_predefined.
  - rewrite baseScores_lookup. case_decide as Hin; [done|]. intros _.
    rewrite phraseBonuses_absent.
    + rewrite baseScores_lookup. by rewrite decide_False.
    + intros Hbonus. by apply Hin, bonusKeywords_predefined.
  - unfold fallbackScoring.
    rewrite (fallbackScoringOver_lookup _ _ _ bonusKeywords_predefined).
    case_decide as Hin; split; done.
  - intros v. unfold fallbackScoring.
    rewrite (fallbackScoringOver_lookup _ _ _ bonusKeywords_predefined).
    case_decide; [|done]. intros [= <-]. eauto.
Qed.

(** The query of the first rule: ["beach"] and ["tropical"] get their
    bonus on the entries the base scoring made, and no other key appears. *)
Example vacation_bonus_on_existing_entries :
  (@fallbackScoring exampleHost "a vacation") !! "beach" = Some (Num 3)
  /\ (@fallbackScoring exampleHost "a vacation") !! "tropical" = Some (Num 3)
  /\ size (@fallbackScoring exampleHost "a vacation") = length PREDEFINED_KEYWORDS.
Proof. split_and!; vm_compute; reflexivity. Qed.

Section ClaudePathFacts.
Context `{JSHost}.

(** The fallback scorer covers the built-in vocabulary. *)
Lemma fallbackScoring_covers query :
  covers PREDEFINED_KEYWORDS (Scored (fallbackScoring query)).
Proof.
  apply Forall_forall. intros kw Hin. unfold scoreAt, fallbackScoring.
  rewrite fallbackScoringOver_in by done.
  eexists. split; [reflexivity|].
  pose proof (fallback_score_range query kw).
  unfold Qle. simpl. lia.
Qed.

(** The inner [try] block yields a parsed value only along one path:
  [data.success], [data.data] and [data.data.content] are truthy,
  [data.data.content[0].text] is a string, the brace pattern matches it
  and [JSON.parse] accepts the match. *)
Lemma extractScores_cases query data keywordScores :
extractScores query data = Some keywordScores ->
keywordScores = Scored (fallbackScoring query)
\/ exists ok inner contents first content jsonMatch v,
     get_prop data "success" = Some ok /\ truthy ok = true
     /\ get_prop data "data" = Some inner /\ truthy inner = true
     /\ get_prop inner "content" = Some contents /\ truthy contents = true
     /\ get_index0 contents = Some first
     /\ get_prop first "text" = Some (JStr content)
     /\ match_braces content = Some jsonMatch
     /\ JSON_parse jsonMatch = Some v
     /\ keywordScores = Parsed v.
Proof.
unfold extractScores. intros Hex.
destruct (get_prop data "success") as [ok|]; [|done]. cbn in Hex.
destruct (truthy ok) eqn:Hok; [|done]. cbn in Hex.
destruct (get_prop data "data") as [inner|]; [|done]. cbn in Hex.
destruct (truthy inner) eqn:Hinner; [|done]. cbn in Hex.
destruct (get_prop inner "content") as [contents|] eqn:Hcontents; [|done].
cbn in Hex.
destruct (truthy contents) eqn:Htruthy; [|done]. cbn in Hex.
destruct (get_index0 contents) as [first|] eqn:Hfirst; [|done]. cbn in Hex.
destruct (get_prop first "text") as [text|] eqn:Htext; [|done]. cbn in Hex.
destruct text as [| | | |content| |]; try done.
destruct (match_braces content) as [jsonMatch|] eqn:Hmatch.
- destruct (JSON_parse jsonMatch) as [v|] eqn:Hparse; [|done].
  injection Hex as <-. right.
  exists ok, inner, contents, first, content, jsonMatch, v. by split_and!.
- injection Hex as <-. by left.
Qed.

Lemma extractScores_parsed query data ok inner contents first content jsonMatch v :
get_prop data "success" = Some ok -> truthy ok = true ->
get_prop data "data" = Some inner -> truthy inner = true ->
get_prop inner "content" = Some contents -> truthy contents = true ->
get_index0 contents = Some first ->
get_prop first "text" = Some (JStr content) ->
match_braces content = Some jsonMatch ->
JSON_parse jsonMatch = Some v ->
extractScores query data = Some (Parsed v).
Proof.
intros Hok Hokt Hinner Hinnert Hcontents Hcontentst Hfirst Htext Hmatch Hparse.
unfold extractScores. rewrite Hok. cbn. rewrite Hokt. cbn.
rewrite Hinner. cbn. rewrite Hinnert. cbn.
rewrite Hcontents. cbn. rewrite Hcontentst. cbn.
rewrite Hfirst. cbn. rewrite Htext. cbn. by rewrite Hmatch, Hparse.
Qed.
End ClaudePathFacts.

(** C1 fails on the Claude path: a reply whose content text is the empty
    JSON object is returned as it is, so the score of ["beach"] (and of
    every other keyword) is missing. *)
Lemma C1_counterexample :
  @analyzeQueryWithClaude exampleHost
     (Some ("handleResponse(" +:+ reply_payload +:+ ")")) "beach holiday"
  = Parsed (JObj [])
  /\ ~ covers PREDEFINED_KEYWORDS
        (@analyzeQueryWithClaude exampleHost
           (Some ("handleResponse(" +:+ reply_payload +:+ ")")) "beach holiday").
Proof.
  assert (Hrun : @analyzeQueryWithClaude exampleHost
            (Some ("handleResponse(" +:+ reply_payload +:+ ")")) "beach holiday"
          = Parsed (JObj [])) by (vm_compute; reflexivity).
  split; [exact Hrun|]. rewrite Hrun. intros Hcovers.
  apply Forall_cons in Hcovers as [(q & Hq & _) _]. discriminate Hq.
Qed.

(** C1, amended: for every query the fallback scorer returns an object
    whose keys are exactly the keywords of the vocabulary, each with an
    integer between 0 and 10 (indeed at least 1).  The Claude path returns
    that object unless the reply parses, has truthy [success], [data] and
    [data.content], has a string at [data.content[0].text], the brace
    pattern matches that string and the match parses; it then returns the
    parsed value as it is. *)
Theorem C1_scorer_result `{JSHost} (response : option string) (query : string) :
  covers PREDEFINED_KEYWORDS (Scored (fallbackScoring query))
  /\ (forall kw, kw ∉ PREDEFINED_KEYWORDS -> fallbackScoring query !! kw = None)
  /\ (analyzeQueryWithClaude response query = Scored (fallbackScoring query)
      \/ exists v, analyzeQueryWithClaude response query = Parsed v)
  /\ (forall v,
        analyzeQueryWithClaude response query = Parsed v <->
        exists text data ok inner contents first content jsonMatch,
          response = Some text
          /\ JSON_parse (jsonp_payload text) = Some data
          /\ get_prop data "success" = Some ok /\ truthy ok = true
          /\ get_prop data "data" = Some inner /\ truthy inner = true
          /\ get_prop inner "content" = Some contents /\ truthy contents = true
          /\ get_index0 contents = Some first
          /\ get_prop first "text" = Some (JStr content)
          /\ match_braces content = Some jsonMatch
          /\ JSON_parse jsonMatch = Some v).
Proof.
  split; [apply fallbackScoring_covers|]. split; [|split].
  - intros kw Hkw. unfold fallbackScoring.
    rewrite (fallbackScoringOver_lookup _ _ _ bonusKeywords_predefined).
    by rewrite decide_False.
  - unfold analyzeQueryWithClaude.
    destruct response as [text|]; [|by left].
    destruct (JSON_parse (jsonp_payload text)) as [data|]; [|by left].
    destruct (extractScores query data) as [keywordScores|] eqn:Hex; [|by left].
    apply extractScores_cases in Hex as [->|Hex]; [by left|].
    destruct Hex as (? & ? & ? & ? & ? & ? & v & Hex). right. exists v.
    by destruct Hex as (_ & _ & _ & _ & _ & _ & _ & _ & _ & _ & ->).
  - intros v. unfold analyzeQueryWithClaude. split.
    + destruct response as [text|]; [|done].
      destruct (JSON_parse (jsonp_payload text)) as [data|] eqn:Hdata; [|done].
      destruct (extractScores query data) as [keywordScores|] eqn:Hex; [|done].
      intros ->. apply extractScores_cases in Hex as [?|Hex]; [done|].
      destruct Hex as (ok & inner & contents & first & content & jsonMatch & v'
                       & Hex).
      exists text, data, ok, inner, contents, first, content, jsonMatch.
      destruct Hex as (? & ? & ? & ? & ? & ? & ? & ? & ? & ? & [= ->]).
      by split_and!.
    + intros (text & data & ok & inner & contents & first & content & jsonMatch
              & -> & Hdata & Hrest).
      rewrite Hdata.
      destruct Hrest as (? & ? & ? & ? & ? & ? & ? & ? & ? & ?).
      by erewrite extractScores_parsed.
Qed.

(** ** The stable sort *)

Lemma Before_nil {A : Type} (x y : A) : ~ Before x y [].
Proof. intros (l1 & l2 & l3 & Hl). by destruct l1. Qed.

Lemma Before_cons {A : Type} (x y a : A) (l : list A) :
  Before x y (a :: l) <-> (a = x /\ y ∈ l) \/ Before x y l.
Proof.
  split.
  - intros (l1 & l2 & l3 & Hl). destruct l1 as [|a' l1]; simplify_eq/=.
    + left. split; [done|]. apply elem_of_app. right. apply list_elem_of_here.
    + right. by exists l1, l2, l3.
  - intros [[-> Hy]|(l1 & l2 & l3 & ->)].
    + apply list_elem_of_split in Hy as (l2 & l3 & ->). by exists [], l2, l3.
    + by exists (a :: l1), l2, l3.
Qed.

Lemma Before_elem_of {A : Type} (x y : A) (l : list A) :
  Before x y l -> x ∈ l /\ y ∈ l.
Proof.
  intros (l1 & l2 & l3 & ->). split.
  - apply elem_of_app. right. apply list_elem_of_here.
  - apply elem_of_app. right. apply list_elem_of_further, elem_of_app. right.
    apply list_elem_of_here.
Qed.

Section StableSortFacts.
Context {A : Type} (key : A -> Z).

Local Abbreviation descending := (StronglySorted (fun a b : A => key b <= key a)).

Lemma insert_desc_Permutation x l : insert_desc key x l ≡ₚ x :: l.
Proof.
  induction l as [|y l IH]; simpl; [done|].
  case_match; [|done]. rewrite IH. apply Permutation_swap.
Qed.

Lemma sort_desc_cons x l :
  sort_desc key (x :: l) = insert_desc key x (sort_desc key l).
Proof. reflexivity. Qed.

Lemma sort_desc_Permutation l : sort_desc key l ≡ₚ l.
Proof.
  induction l as [|x l IH]; simpl; [done|].
  by rewrite insert_desc_Permutation, IH.
Qed.

Lemma elem_of_insert_desc x y l : y ∈ insert_desc key x l <-> y = x \/ y ∈ l.
Proof. by rewrite insert_desc_Permutation, elem_of_cons. Qed.

Lemma elem_of_sort_desc x l : x ∈ sort_desc key l <-> x ∈ l.
Proof. by rewrite sort_desc_Permutation. Qed.

Lemma length_sort_desc l : length (sort_desc key l) = length l.
Proof. by rewrite sort_desc_Permutation. Qed.

Lemma insert_desc_sorted x l : descending l -> descending (insert_desc key x l).
Proof.
  induction 1 as [|y l Hl IH Hy]; simpl.
  - repeat constructor.
  - destruct (key x <? key y) eqn:Hxy.
    + apply Z.ltb_lt in Hxy. constructor; [done|].
      apply Forall_forall. intros z [->|Hz]%elem_of_insert_desc; [lia|].
      by eapply Forall_forall in Hy.
    + apply Z.ltb_ge in Hxy. constructor; [by constructor|].
      constructor; [done|]. eapply Forall_impl; [exact Hy|]. simpl. lia.
Qed.

Lemma sort_desc_sorted l : descending (sort_desc key l).
Proof.
  induction l as [|x l IH]; simpl; [constructor | by apply insert_desc_sorted].
Qed.

(** Stability: the elements of one key keep their order. *)
Lemma filter_insert_desc s x l :
  filter (fun y => key y = s) (insert_desc key x l)
  = filter (fun y => key y = s) (x :: l).
Proof.
  induction l as [|y l IH]; cbn [insert_desc]; [done|].
  destruct (key x <? key y) eqn:Hxy; [|done].
  apply Z.ltb_lt in Hxy. rewrite !filter_cons in *.
  repeat case_decide; try lia; rewrite IH; done.
Qed.

Lemma filter_sort_desc s l :
  filter (fun y => key y = s) (sort_desc key l) = filter (fun y => key y = s) l.
Proof.
  induction l as [|x l IH]; cbn [sort_desc foldr]; [done|].
  fold (sort_desc key l). rewrite filter_insert_desc, !filter_cons, IH. done.
Qed.

Lemma Before_insert_desc_keep x y z l :
  Before x y l -> Before x y (insert_desc key z l).
Proof.
  induction l as [|a l IH]; simpl; [by intros ?%Before_nil|].
  intros Hb. case_match; [|apply Before_cons; by right].
  apply Before_cons in Hb as [[-> Hy]|Hb]; apply Before_cons.
  - left. split; [done|]. apply elem_of_insert_desc. by right.
  - right. by apply IH.
Qed.

Lemma Before_insert_desc_new y z l :
  y ∈ l -> key y <= key z -> Before z y (insert_desc key z l).
Proof.
  induction l as [|a l IH]; simpl; [by intros ?%elem_of_nil|].
  intros Hy Hyz. destruct (key z <? key a) eqn:Hza.
  - apply Z.ltb_lt in Hza. apply Before_cons. right. apply IH; [|done].
    apply elem_of_cons in Hy as [->|Hy]; [lia | done].
  - apply Before_cons. by left.
Qed.

Lemma Before_insert_desc_old y z l :
  descending l -> y ∈ l -> key z < key y -> Before y z (insert_desc key z l).
Proof.
  induction 1 as [|a l Hl IH Ha]; simpl; [by intros ?%elem_of_nil|].
  intros Hy Hzy. destruct (key z <? key a) eqn:Hza.
  - apply Before_cons. apply elem_of_cons in Hy as [->|Hy].
    + left. split; [done|]. apply elem_of_insert_desc. by left.
    + right. by apply IH.
  - apply Z.ltb_ge in Hza. exfalso.
    apply elem_of_cons in Hy as [->|Hy]; [lia|].
    eapply Forall_forall in Ha; [|exact Hy]. simpl in Ha. lia.
Qed.

Lemma Before_insert_desc_inv x y z l :
  Before x y (insert_desc key z l) ->
  (x = z /\ y ∈ l) \/ (y = z /\ x ∈ l /\ key z < key x) \/ Before x y l.
Proof.
  induction l as [|a l IH]; simpl.
  - intros [[_ Hy]|Hb]%Before_cons; [by apply elem_of_nil in Hy|].
    by apply Before_nil in Hb.
  - destruct (key z <? key a) eqn:Hza.
    + apply Z.ltb_lt in Hza. intros [[-> Hy]|Hb]%Before_cons.
      * apply elem_of_insert_desc in Hy as [->|Hy].
        -- right. left. split; [done|]. split; [apply list_elem_of_here | done].
        -- right. right. apply Before_cons. by left.
      * destruct (IH Hb) as [[-> Hy]|[(-> & Hx & Hlt)|Hb']].
        -- left. split; [done|]. by apply list_elem_of_further.
        -- right. left. split; [done|]. split; [by apply list_elem_of_further | done].
        -- right. right. apply Before_cons. by right.
    + intros [[<- Hy]|Hb]%Before_cons; [by left | by right; right].
Qed.

(** A pair that is already in order stays in order. *)
Lemma Before_sort_desc_keep x y l :
  Before x y l -> key y <= key x -> Before x y (sort_desc key l).
Proof.
  induction l as [|a l IH]; [by intros ?%Before_nil|]. rewrite sort_desc_cons.
  intros [[-> Hy]|Hb]%Before_cons Hyx.
  - apply Before_insert_desc_new; [by apply elem_of_sort_desc | done].
  - by apply Before_insert_desc_keep, IH.
Qed.

(** A greater key goes first. *)
Lemma Before_sort_desc_greater x y l :
  x ∈ l -> y ∈ l -> key y < key x -> Before x y (sort_desc key l).
Proof.
  induction l as [|a l IH]; [by intros ?%elem_of_nil|]. rewrite sort_desc_cons.
  intros [->|Hx]%elem_of_cons [->|Hy]%elem_of_cons Hyx.
  - lia.
  - apply Before_insert_desc_new; [by apply elem_of_sort_desc | lia].
  - apply Before_insert_desc_old;
      [apply sort_desc_sorted | by apply elem_of_sort_desc | done].
  - by apply Before_insert_desc_keep, IH.
Qed.

Lemma Before_sorted x y l : descending l -> Before x y l -> key y <= key x.
Proof.
  intros Hl (l1 & l2 & l3 & ->).
  apply StronglySorted_app_1_r, StronglySorted_cons in Hl as [Hx _].
  eapply Forall_forall in Hx; [exact Hx|].
  apply elem_of_app. right. apply list_elem_of_here.
Qed.

(** Equal keys come out in the order they went in. *)
Lemma Before_sort_desc_stable x y l :
  Before x y (sort_desc key l) -> key x = key y -> Before x y l.
Proof.
  induction l as [|a l IH]; [by intros ?%Before_nil|]. rewrite sort_desc_cons.
  intros [[-> Hy]|[(-> & Hx & Hlt)|Hb]]%Before_insert_desc_inv Hxy.
  - apply Before_cons. left. split; [done|]. by apply elem_of_sort_desc.
  - lia.
  - apply Before_cons. right. by apply IH.
Qed.
End StableSortFacts.

(** ** The ranker *)

Lemma omap_cons {A B : Type} (f : A -> option B) (x : A) (l : list A) :
  omap f (x :: l)
  = match f x with Some y => y :: omap f l | None => omap f l end.
Proof. reflexivity. Qed.

Lemma sumScores_above threshold pairs :
  0 <= threshold ->
  Forall (fun p => threshold < score p) pairs ->
  (pairs = [] /\ sumScores pairs = 0) \/ (pairs <> [] /\ 0 < sumScores pairs).
Proof.
  intros Ht Hall. destruct Hall as [|p pairs Hp Hall]; [by left|]. right.
  split; [done|]. simpl.
  assert (0 <= sumScores pairs); [|lia].
  induction Hall as [|q pairs Hq _ IH]; simpl; lia.
Qed.

Section RankerFacts.
Context `{JSHost}.

Lemma contribution_Some threshold scores kw p :
  contribution threshold scores kw = Some p <->
  keyword p = kw /\ scoreOf scores kw = Some (score p) /\ threshold < score p.
Proof.
  unfold contribution. destruct (scoreOf scores kw) as [s|].
  - destruct (threshold <? s) eqn:Hts.
    + apply Z.ltb_lt in Hts. split.
      * intros [= <-]. by simpl.
      * destruct p as [kw' s']. simpl. intros (-> & [= ->] & _). done.
    + apply Z.ltb_ge in Hts. split; [done|]. intros (_ & [= ->] & ?). lia.
  - split; [done|]. by intros (_ & ? & _).
Qed.

Lemma contributing_above threshold scores destination :
  Forall (fun p => threshold < score p) (contributing threshold scores destination).
Proof.
  apply Forall_forall. intros p (kw & _ & Hp)%list_elem_of_omap.
  by apply contribution_Some in Hp as (_ & _ & ?).
Qed.

Lemma tallyStep_spec threshold scores total matched kw :
  0 <= threshold ->
  tallyStep threshold scores (total, matched) kw
  = match contribution threshold scores kw with
    | Some p => (total + score p, matched ++ [p])
    | None => (total, matched)
    end.
Proof.
  intros Ht. unfold tallyStep, contribution, scoreOf.
  destruct (scores !! ToPropertyKey kw) as [[s|]|]; [|done|done].
  destruct (threshold <? s) eqn:Hts; [|by rewrite andb_false_r].
  apply Z.ltb_lt in Hts. replace (s =? 0) with false; [done|].
  symmetry. apply Z.eqb_neq. lia.
Qed.

Lemma tallyKeywords_fold threshold scores kws total matched :
  0 <= threshold ->
  foldl (tallyStep threshold scores) (total, matched) kws
  = (total + sumScores (omap (contribution threshold scores) kws),
     matched ++ omap (contribution threshold scores) kws).
Proof.
  intros Ht. revert total matched.
  induction kws as [|kw kws IH]; intros total matched; cbn [foldl].
  - simpl. by rewrite Z.add_0_r, app_nil_r.
  - rewrite tallyStep_spec, omap_cons by done.
    destruct (contribution threshold scores kw) as [p|]; rewrite IH; [|done].
    simpl. f_equal; [lia | by rewrite <- app_assoc].
Qed.

Lemma tallyKeywords_spec threshold scores kws :
  0 <= threshold ->
  tallyKeywords threshold scores kws
  = (sumScores (omap (contribution threshold scores) kws),
     omap (contribution threshold scores) kws).
Proof. intros Ht. unfold tallyKeywords. by rewrite tallyKeywords_fold. Qed.

Lemma pushResult_spec threshold scores destination kws :
  0 <= threshold ->
  keywords destination = JArr kws ->
  pushResult destination (tallyKeywords threshold scores kws)
  = rankEntity threshold scores destination.
Proof.
  intros Ht Hkws. rewrite tallyKeywords_spec by done.
  unfold pushResult, rankEntity, contributing, keywordList. rewrite Hkws.
  set (pairs := omap (contribution threshold scores) kws).
  assert (Habove : Forall (fun p => threshold < score p) pairs).
  { pose proof (contributing_above threshold scores destination) as Hc.
    unfold contributing, keywordList in Hc. by rewrite Hkws in Hc. }
  destruct (sumScores_above threshold pairs Ht Habove) as [[_ Hsum]|[_ Hsum]].
  - by rewrite Hsum.
  - replace (0 <? sumScores pairs) with true by (symmetry; apply Z.ltb_lt; lia).
    replace (sumScores pairs =? 0) with false by (symmetry; apply Z.eqb_neq; lia).
    done.
Qed.

Lemma rankEntity_no_keywords threshold scores destination :
  keywordList destination = [] -> rankEntity threshold scores destination = None.
Proof. intros Hkws. unfold rankEntity, contributing. by rewrite Hkws. Qed.

Lemma firstPassEntry_spec scores destination :
  firstPassEntry scores destination = rankEntity 5 scores destination.
Proof.
  unfold firstPassEntry.
  destruct (keywords destination) as [| | | | |[|kw kws]|] eqn:Hkws;
    try (symmetry; apply rankEntity_no_keywords; unfold keywordList;
         by rewrite Hkws).
  by apply pushResult_spec.
Qed.

Lemma secondPassEntry_spec scores destination :
  secondPassEntry scores destination = rankEntity 3 scores destination.
Proof.
  unfold secondPassEntry.
  destruct (keywords destination) as [| | | | |kws|] eqn:Hkws;
    try (symmetry; apply rankEntity_no_keywords; unfold keywordList;
         by rewrite Hkws).
  by apply pushResult_spec.
Qed.

Lemma firstPass_spec scores catalog :
  omap (firstPassEntry scores) catalog = rankPass 5 scores catalog.
Proof. apply list_omap_ext, Forall2_same_length_lookup_2; [done|].
  intros i d d' Hd Hd'. rewrite Hd in Hd'. injection Hd' as <-.
  apply firstPassEntry_spec.
Qed.

Lemma secondPass_spec scores catalog :
  omap (secondPassEntry scores) catalog = rankPass 3 scores catalog.
Proof. apply list_omap_ext, Forall2_same_length_lookup_2; [done|].
  intros i d d' Hd Hd'. rewrite Hd in Hd'. injection Hd' as <-.
  apply secondPassEntry_spec.
Qed.

Lemma activeThreshold_cases catalog scores :
  (rankPass 5 scores catalog = [] /\ activeThreshold catalog scores = 3)
  \/ (rankPass 5 scores catalog <> [] /\ activeThreshold catalog scores = 5).
Proof. unfold activeThreshold. rewrite firstPass_spec. case_decide; auto. Qed.

Lemma findMatchingDestinations_spec catalog scores :
  findMatchingDestinations catalog scores
  = sort_desc r_score (rankPass (activeThreshold catalog scores) scores catalog).
Proof.
  unfold findMatchingDestinations. rewrite firstPass_spec, secondPass_spec.
  destruct (activeThreshold_cases catalog scores) as [[Hempty ->]|[Hsome ->]].
  - by rewrite Hempty.
  - destruct (rankPass 5 scores catalog); done.
Qed.

(** The pass whose results are sorted, read off the two loops of the
    source. *)
Lemma activePass_code catalog scores :
  rankPass (activeThreshold catalog scores) scores catalog
  = if decide (omap (firstPassEntry scores) catalog = [])
    then omap (secondPassEntry scores) catalog
    else omap (firstPassEntry scores) catalog.
Proof.
  unfold activeThreshold. case_decide.
  - by rewrite secondPass_spec.
  - by rewrite firstPass_spec.
Qed.

Lemma rankEntity_Some threshold scores destination r :
  rankEntity threshold scores destination = Some r ->
  r_id r = d_id destination
  /\ r_score r = sumScores (contributing threshold scores destination)
  /\ matchedKeywords r
     = take 3 (sort_desc score (contributing threshold scores destination))
  /\ sumScores (contributing threshold scores destination) <> 0.
Proof.
  unfold rankEntity.
  destruct (sumScores (contributing threshold scores destination) =? 0) eqn:Hsum;
    [done|].
  apply Z.eqb_neq in Hsum. intros [= <-]. by simpl.
Qed.
End RankerFacts.

Lemma Before_omap {A B : Type} (f : A -> option B) x y x' y' (l : list A) :
  Before x y l -> f x = Some x' -> f y = Some y' -> Before x' y' (omap f l).
Proof.
  intros (l1 & l2 & l3 & ->) Hx Hy.
  exists (omap f l1), (omap f l2), (omap f l3).
  by rewrite omap_app, omap_cons, Hx, omap_app, omap_cons, Hy.
Qed.

Lemma Before_omap_inv {A B : Type} (f : A -> option B) x' y' (l : list A) :
  Before x' y' (omap f l) ->
  exists x y, Before x y l /\ f x = Some x' /\ f y = Some y'.
Proof.
  induction l as [|a l IH]; [by intros ?%Before_nil|]. rewrite omap_cons.
  destruct (f a) as [a'|] eqn:Ha.
  - intros [[-> Hy]|Hb]%Before_cons.
    + apply list_elem_of_omap in Hy as (y & Hy & Hfy).
      exists a, y. split; [|done]. apply Before_cons. by left.
    + destruct (IH Hb) as (x & y & Hxy & Hx & Hy).
      exists x, y. split; [|done]. apply Before_cons. by right.
  - intros Hb. destruct (IH Hb) as (x & y & Hxy & Hx & Hy).
    exists x, y. split; [|done]. apply Before_cons. by right.
Qed.

Lemma omap_nil_all {A B : Type} (f : A -> option B) (l : list A) :
  Forall (fun x => f x = None) l -> omap f l = [].
Proof. induction 1 as [|x l Hx _ IH]; [done|]. by rewrite omap_cons, Hx. Qed.

Lemma StronglySorted_take {A : Type} (R : relation A) (n : nat) (l : list A) :
  StronglySorted R l -> StronglySorted R (take n l).
Proof.
  intros Hl. rewrite <- (take_drop n l) in Hl.
  by apply StronglySorted_app_1_l in Hl.
Qed.

Section RankerResults.
Context `{JSHost}.

Lemma contributing_elem_of threshold scores destination p :
  p ∈ contributing threshold scores destination <->
  keyword p ∈ keywordList destination
  /\ scoreOf scores (keyword p) = Some (score p)
  /\ threshold < score p.
Proof.
  unfold contributing. rewrite list_elem_of_omap. split.
  - intros (kw & Hkw & (<- & Hs & Hlt)%contribution_Some). done.
  - intros (Hkw & Hs & Hlt). exists (keyword p). split; [done|].
    by apply contribution_Some.
Qed.

Lemma matched_facts threshold scores destination r :
  rankEntity threshold scores destination = Some r ->
  pairsDescending (matchedKeywords r)
  /\ (length (matchedKeywords r) <= 3)%nat
  /\ (length (matchedKeywords r)
      = Nat.min 3 (length (contributing threshold scores destination)))
  /\ Forall (fun p => threshold < score p) (matchedKeywords r).
Proof.
  intros (_ & _ & -> & _)%rankEntity_Some. split_and!.
  - apply StronglySorted_take, sort_desc_sorted.
  - rewrite length_take. lia.
  - by rewrite length_take, length_sort_desc.
  - apply Forall_take. rewrite sort_desc_Permutation. apply contributing_above.
Qed.

Lemma rankEntity_positive threshold scores destination r :
  0 <= threshold ->
  rankEntity threshold scores destination = Some r ->
  0 < r_score r /\ (1 <= length (matchedKeywords r))%nat.
Proof.
  intros Ht Hr. destruct (matched_facts _ _ _ _ Hr) as (_ & _ & Hlen & _).
  apply rankEntity_Some in Hr as (_ & -> & _ & Hsum).
  destruct (sumScores_above threshold _ Ht (contributing_above threshold scores destination))
    as [[_ Hzero]|[Hne Hpos]]; [done|].
  split; [done|]. rewrite Hlen.
  destruct (contributing threshold scores destination); [done|]. simpl. lia.
Qed.

Lemma rankEntity_None threshold scores destination :
  rankEntity threshold scores destination = None <->
  sumScores (contributing threshold scores destination) = 0.
Proof.
  unfold rankEntity.
  destruct (sumScores (contributing threshold scores destination) =? 0) eqn:Hsum.
  - by apply Z.eqb_eq in Hsum.
  - by apply Z.eqb_neq in Hsum.
Qed.
End RankerResults.

(** ** Claims about the ranker *)




(** C10: every result the ranker returns has a positive total and between
    one and three matched pairs, each with a score above the bar of the
    pass that produced the results. *)
Theorem C10_result_invariant `{JSHost} (catalog : list Destination)
    (scores : gmap string jsnum) :
  Forall (fun r =>
            0 < r_score r
            /\ (1 <= length (matchedKeywords r) <= 3)%nat
            /\ Forall (fun p => activeThreshold catalog scores < score p)
                      (matchedKeywords r))
         (findMatchingDestinations catalog scores)
  /\ ((omap (firstPassEntry scores) catalog <> []
       /\ activeThreshold catalog scores = 5)
      \/ (omap (firstPassEntry scores) catalog = []
          /\ activeThreshold catalog scores = 3)).
Proof.
  split; [|unfold activeThreshold; case_decide; auto].
  rewrite findMatchingDestinations_spec, sort_desc_Permutation.
  apply Forall_forall. intros r (d & _ & Hr)%list_elem_of_omap.
  assert (Ht : 0 <= activeThreshold catalog scores).
  { destruct (activeThreshold_cases catalog scores) as [[_ ->]|[_ ->]]; lia. }
  destruct (rankEntity_positive _ _ _ _ Ht Hr) as [Hpos Hlen].
  destruct (matched_facts _ _ _ _ Hr) as (_ & Hle & _ & Habove).
  split_and!; done.
Qed.

(** C7: the returned sequence is sorted by decreasing total, and results
    with equal totals keep the order their entities have in the catalog:
    the sort only permutes the pass results, which are in catalog order,
    and leaves the results of each total in place. *)
Theorem C7_sorted_stable `{JSHost} (catalog : list Destination)
    (scores : gmap string jsnum) :
  byScoreDescending (findMatchingDestinations catalog scores)
  /\ rankPass (activeThreshold catalog scores) scores catalog
     = (if decide (omap (firstPassEntry scores) catalog = [])
        then omap (secondPassEntry scores) catalog
        else omap (firstPassEntry scores) catalog)
  /\ findMatchingDestinations catalog scores
     ≡ₚ rankPass (activeThreshold catalog scores) scores catalog
  /\ (forall s,
        filter (fun r => r_score r = s) (findMatchingDestinations catalog scores)
        = filter (fun r => r_score r = s)
                 (rankPass (activeThreshold catalog scores) scores catalog))
  /\ (forall ra rb,
        Before ra rb (findMatchingDestinations catalog scores) ->
        r_score ra = r_score rb ->
        exists da db,
          Before da db catalog
          /\ rankEntity (activeThreshold catalog scores) scores da = Some ra
          /\ rankEntity (activeThreshold catalog scores) scores db = Some rb).
Proof.
  rewrite findMatchingDestinations_spec. split_and!.
  - apply sort_desc_sorted.
  - apply activePass_code.
  - apply sort_desc_Permutation.
  - intros s. apply filter_sort_desc.
  - intros ra rb Hb Heq. apply Before_sort_desc_stable in Hb; [|done].
    by apply Before_omap_inv in Hb.
Qed.

(** Two totals of 19 and two of 9: each pair keeps its catalog order. *)
Example ties_keep_catalog_order :
  r_id <$> @findMatchingDestinations exampleHost DEFAULT_DESTINATIONS
             (@fallbackScoring exampleHost "beach vacation photography")
  = ["D-001"; "D-005"; "D-002"; "D-003"]
  /\ r_score <$> @findMatchingDestinations exampleHost DEFAULT_DESTINATIONS
                   (@fallbackScoring exampleHost "beach vacation photography")
     = [19; 19; 9; 9].
Proof. split; vm_compute; reflexivity. Qed.

(** C2: the ranker returns the sorted results of the pass with bar 5 when
    there are any, and otherwise the sorted results of the same per-entity
    procedure with bar 3, whatever they are.  When every score is 4 and
    some entity has a keyword scored 4, the first pass is empty and the
    second is not. *)
Theorem C2_two_pass `{JSHost} (catalog : list Destination)
    (scores : gmap string jsnum) :
  (rankPass 5 scores catalog <> [] ->
   findMatchingDestinations catalog scores
   = sort_desc r_score (rankPass 5 scores catalog))
  /\ (rankPass 5 scores catalog = [] ->
      findMatchingDestinations catalog scores
      = sort_desc r_score (rankPass 3 scores catalog))
  /\ omap (firstPassEntry scores) catalog = rankPass 5 scores catalog
  /\ omap (secondPassEntry scores) catalog = rankPass 3 scores catalog
  /\ ((forall kw v, scores !! kw = Some v -> v = Num 4) ->
      (exists d kw, d ∈ catalog /\ kw ∈ keywordList d
                    /\ scores !! ToPropertyKey kw = Some (Num 4)) ->
      rankPass 5 scores catalog = []
      /\ rankPass 3 scores catalog <> []
      /\ findMatchingDestinations catalog scores <> []).
Proof.
  split_and!.
  - intros Hsome. rewrite findMatchingDestinations_spec.
    by destruct (activeThreshold_cases catalog scores) as [[? _]|[_ ->]].
  - intros Hempty. rewrite findMatchingDestinations_spec.
    by destruct (activeThreshold_cases catalog scores) as [[_ ->]|[? _]].
  - apply firstPass_spec.
  - apply secondPass_spec.
  - intros Hfour (d & kw & Hd & Hkw & Hscore).
    assert (Hfirst : rankPass 5 scores catalog = []).
    { apply omap_nil_all, Forall_forall. intros d' _.
      apply rankEntity_None. unfold contributing.
      rewrite omap_nil_all; [done|]. apply Forall_forall. intros kw' _.
      destruct (contribution 5 scores kw') as [p|] eqn:Hp; [|done].
      apply contribution_Some in Hp as (_ & Hs & Hlt). unfold scoreOf in Hs.
      destruct (scores !! ToPropertyKey kw') as [v|] eqn:Hv; [|done].
      apply Hfour in Hv as ->. injection Hs as Hs. lia. }
    assert (Hsecond : rankPass 3 scores catalog <> []).
    { destruct (rankEntity 3 scores d) as [r|] eqn:Hr.
      - intros Hnil. assert (Hin : r ∈ rankPass 3 scores catalog).
        { apply list_elem_of_omap. by exists d. }
        rewrite Hnil in Hin. by apply elem_of_nil in Hin.
      - apply rankEntity_None in Hr.
        assert (Hin : {| keyword := kw; score := 4 |} ∈ contributing 3 scores d).
        { apply contributing_elem_of. simpl. split; [done|].
          split; [|lia]. unfold scoreOf. by rewrite Hscore. }
        destruct (sumScores_above 3 _ ltac:(lia) (contributing_above 3 scores d))
          as [[Hnil _]|[_ Hpos]]; [|lia].
        rewrite Hnil in Hin. by apply elem_of_nil in Hin. }
    split; [done|]. split; [done|].
    rewrite findMatchingDestinations_spec.
    destruct (activeThreshold_cases catalog scores) as [[_ ->]|[? _]]; [|done].
    intros Hnil. apply Hsecond. apply Permutation_nil_r.
    rewrite <- Hnil. symmetry. apply sort_desc_Permutation.
Qed.

Lemma C2_two_pass_witness :
  @rankPass exampleHost 5 allFour exampleCatalog = []
  /\ @rankPass exampleHost 3 allFour exampleCatalog <> []
  /\ @findMatchingDestinations exampleHost exampleCatalog allFour <> [].
Proof.
  apply (@C2_two_pass exampleHost exampleCatalog allFour).
  - intros kw v. unfold allFour.
    intros [[_ <-]|[_ [[_ <-]|[_ Hv]]%lookup_insert_Some]]%lookup_insert_Some;
      [done | done | by rewrite lookup_empty in Hv].
  - exists entityA, (JStr "beach"). split; [apply list_elem_of_here|].
    split; [apply list_elem_of_here | reflexivity].
Defined.

(** Nothing matches in either pass: the ranker returns no result. *)
Example no_results_after_both_passes :
  @findMatchingDestinations exampleHost DEFAULT_DESTINATIONS
    (@fallbackScoring exampleHost "zzz") = [].
Proof. vm_compute. reflexivity. Qed.

(** The example of the specification: only [entityA] is returned, with 10. *)
Example beach_vacation_ranking :
  r_id <$> @findMatchingDestinations exampleHost exampleCatalog
             (@fallbackScoringOver exampleHost ["beach"; "mountain"]
                "I want a beach vacation") = ["A"]
  /\ r_score <$> @findMatchingDestinations exampleHost exampleCatalog
                   (@fallbackScoringOver exampleHost ["beach"; "mountain"]
                      "I want a beach vacation") = [10].
Proof. split; vm_compute; reflexivity. Qed.


(** ** Claims about the catalog load *)

(** C9: a record whose keyword text [JSON.parse] rejects is loaded with an
    empty keyword list, which no pass of the ranker can match, and the
    records before and after it are loaded as they would be without it. *)
Theorem C9_parse_failure_recovers `{JSHost} (before after : list RawDestination)
    (dest : RawDestination) (text : string) :
  Keywords dest = Some text ->
  JSON_parse text = None ->
  loadDestinations
    (Some {| success := true; destinations := Some (before ++ dest :: after) |})
  = (fromDatabase <$> before) ++ fromDatabase dest :: (fromDatabase <$> after)
  /\ keywords (fromDatabase dest) = JArr []
  /\ d_id (fromDatabase dest) = DestinationID dest
  /\ (forall scores,
        firstPassEntry scores (fromDatabase dest) = None
        /\ secondPassEntry scores (fromDatabase dest) = None).
Proof.
  intros Htext Hparse.
  assert (Hkws : keywords (fromDatabase dest) = JArr []).
  { unfold fromDatabase. simpl. rewrite Htext. simpl. rewrite Hparse.
    by destruct (negb (String.eqb text "")). }
  split_and!.
  - simpl. by rewrite fmap_app, fmap_cons.
  - exact Hkws.
  - done.
  - intros scores. unfold firstPassEntry, secondPassEntry. rewrite Hkws.
    split; [done|]. by vm_compute.
Qed.

Lemma C9_parse_failure_recovers_witness :
  @loadDestinations exampleHost
    (Some {| success := true;
             destinations := Some ([soundRecord] ++ brokenRecord :: [soundRecord]) |})
  = (@fromDatabase exampleHost <$> [soundRecord])
    ++ @fromDatabase exampleHost brokenRecord
    :: (@fromDatabase exampleHost <$> [soundRecord])
  /\ keywords (@fromDatabase exampleHost brokenRecord) = JArr []
  /\ d_id (@fromDatabase exampleHost brokenRecord) = DestinationID brokenRecord
  /\ (forall scores,
        @firstPassEntry exampleHost scores (@fromDatabase exampleHost brokenRecord)
        = None
        /\ @secondPassEntry exampleHost scores (@fromDatabase exampleHost brokenRecord)
           = None).
Proof.
  apply (@C9_parse_failure_recovers exampleHost [soundRecord] [soundRecord]
           brokenRecord "beach, island"); reflexivity.
Defined.

(** The record next to the broken one keeps its keywords. *)
Example sound_record_loaded :
  keywords (@fromDatabase exampleHost soundRecord) = JArr [JStr "beach"]
  /\ d_name (@fromDatabase exampleHost soundRecord) = "Goa, India".
Proof. split; vm_compute; reflexivity. Qed.


(** ** Raising a score *)

Lemma NoDup_fmap_eq {A B : Type} (f : A -> B) (l : list A) (x y : A) :
  NoDup (f <$> l) -> x ∈ l -> y ∈ l -> f x = f y -> x = y.
Proof.
  induction l as [|a l IH]; [by intros _ ?%elem_of_nil|].
  rewrite fmap_cons. intros [Ha Hl]%NoDup_cons.
  intros [->|Hx]%elem_of_cons [->|Hy]%elem_of_cons Hxy; [done| | |by apply IH].
  - exfalso. apply Ha. rewrite Hxy. by apply list_elem_of_fmap_2.
  - exfalso. apply Ha. rewrite <- Hxy. by apply list_elem_of_fmap_2.
Qed.

Section RaisingAScore.
Context `{JSHost}.

(** What a keyword adds to the total of its entity. *)
Lemma contribution_raise threshold scores key v v' kw :
  0 <= threshold ->
  scores !! key = Some (Num v) ->
  v <= v' ->
  sumScores (option_list (contribution threshold scores kw))
  <= sumScores (option_list (contribution threshold (<[key := Num v']> scores) kw)).
Proof.
  intros Ht Hkey Hle. unfold contribution, scoreOf.
  destruct (decide (key = ToPropertyKey kw)) as [<-|Hne].
  - rewrite lookup_insert_eq, Hkey.
    destruct (Z.ltb_spec threshold v); destruct (Z.ltb_spec threshold v');
      simpl; lia.
  - by rewrite lookup_insert_ne.
Qed.

Lemma sumScores_omap_cons (f : jsval -> option MatchedKeyword) kw kws :
  sumScores (omap f (kw :: kws))
  = sumScores (option_list (f kw)) + sumScores (omap f kws).
Proof. rewrite omap_cons. destruct (f kw); simpl; lia. Qed.

Lemma contributing_raise threshold scores key v v' destination :
  0 <= threshold ->
  scores !! key = Some (Num v) ->
  v <= v' ->
  sumScores (contributing threshold scores destination)
  <= sumScores (contributing threshold (<[key := Num v']> scores) destination).
Proof.
  intros Ht Hkey Hle. unfold contributing.
  induction (keywordList destination) as [|kw kws IH]; [done|].
  rewrite !sumScores_omap_cons.
  pose proof (contribution_raise threshold scores key v v' kw Ht Hkey Hle). lia.
Qed.

(** An entity that has a result keeps one, with a total at least as high. *)
Lemma rankEntity_raise threshold scores key v v' destination r :
  0 <= threshold ->
  scores !! key = Some (Num v) ->
  v <= v' ->
  rankEntity threshold scores destination = Some r ->
  exists r',
    rankEntity threshold (<[key := Num v']> scores) destination = Some r'
    /\ r_id r' = r_id r /\ r_score r <= r_score r'.
Proof.
  intros Ht Hkey Hle Hr.
  pose proof (contributing_raise threshold scores key v v' destination Ht Hkey Hle)
    as Hsum.
  destruct (rankEntity_positive _ _ _ _ Ht Hr) as [Hpos _].
  apply rankEntity_Some in Hr as (Hid & Hscore & _ & _).
  destruct (rankEntity threshold (<[key := Num v']> scores) destination)
    as [r'|] eqn:Hr'.
  - exists r'. split; [done|].
    apply rankEntity_Some in Hr' as (Hid' & Hscore' & _ & _).
    split; [congruence | lia].
  - apply rankEntity_None in Hr'. lia.
Qed.
End RaisingAScore.

(** C8: when the score of a keyword is raised and the results still come
    from the same pass, an entity that was ranked ahead of another one
    whose total did not change is still ranked ahead of it.  The entities
    of the catalog are told apart by their identifiers. *)
Theorem C8_rank_monotone `{JSHost} (catalog : list Destination)
    (scores : gmap string jsnum) (key : string) (v v' : Z) (a b : string) :
  NoDup (d_id <$> catalog) ->
  scores !! key = Some (Num v) ->
  v <= v' ->
  activeThreshold catalog (<[key := Num v']> scores)
  = activeThreshold catalog scores ->
  (forall rb rb',
     rb ∈ findMatchingDestinations catalog scores ->
     rb' ∈ findMatchingDestinations catalog (<[key := Num v']> scores) ->
     r_id rb = b -> r_id rb' = b -> r_score rb' = r_score rb) ->
  rankedBefore a b (findMatchingDestinations catalog scores) ->
  rankedBefore a b (findMatchingDestinations catalog (<[key := Num v']> scores)).
Proof.
  intros Hnodup Hkey Hle Hpass Hunchanged (ra & rb & Hbefore & Hida & Hidb).
  rewrite !findMatchingDestinations_spec in *. rewrite Hpass in *.
  set (t := activeThreshold catalog scores) in *.
  assert (Ht : 0 <= t).
  { subst t. destruct (activeThreshold_cases catalog scores) as [[_ ->]|[_ ->]]; lia. }
  destruct (Before_elem_of _ _ _ Hbefore) as [Hra Hrb].
  pose proof Hra as Hra_pass. pose proof Hrb as Hrb_pass.
  apply elem_of_sort_desc, list_elem_of_omap in Hra_pass as (da & Hda & Hrda).
  apply elem_of_sort_desc, list_elem_of_omap in Hrb_pass as (db & Hdb & Hrdb).
  destruct (rankEntity_raise t scores key v v' da ra Ht Hkey Hle Hrda)
    as (ra' & Hrda' & Hida' & Hsa).
  destruct (rankEntity_raise t scores key v v' db rb Ht Hkey Hle Hrdb)
    as (rb' & Hrdb' & Hidb' & Hsb).
  assert (Hra' : ra' ∈ rankPass t (<[key := Num v']> scores) catalog).
  { apply list_elem_of_omap. by exists da. }
  assert (Hrb' : rb' ∈ rankPass t (<[key := Num v']> scores) catalog).
  { apply list_elem_of_omap. by exists db. }
  assert (Hsame : r_score rb' = r_score rb).
  { apply Hunchanged; [done | by apply elem_of_sort_desc | done | congruence]. }
  pose proof (Before_sorted r_score _ _ _ (sort_desc_sorted r_score _) Hbefore)
    as Horder.
  exists ra', rb'. split; [|split; congruence].
  destruct (decide (r_score rb' < r_score ra')) as [Hgreater|Hnot].
  - by apply Before_sort_desc_greater.
  - apply Before_sort_desc_keep; [|lia].
    apply Before_sort_desc_stable in Hbefore; [|lia].
    apply Before_omap_inv in Hbefore as (da0 & db0 & Hcat & Hrda0 & Hrdb0).
    destruct (Before_elem_of _ _ _ Hcat) as [Hda0 Hdb0].
    assert (da0 = da) as ->.
    { apply (NoDup_fmap_eq d_id catalog); [done..|].
      apply rankEntity_Some in Hrda0 as (<- & _).
      by apply rankEntity_Some in Hrda as (<- & _). }
    assert (db0 = db) as ->.
    { apply (NoDup_fmap_eq d_id catalog); [done..|].
      apply rankEntity_Some in Hrdb0 as (<- & _).
      by apply rankEntity_Some in Hrdb as (<- & _). }
    by eapply Before_omap.
Qed.

Lemma C8_rank_monotone_witness :
  rankedBefore "A" "B"
    (@findMatchingDestinations exampleHost exampleCatalog
       (<["beach" := Num 9]> beachFirst)).
Proof.
  apply (@C8_rank_monotone exampleHost exampleCatalog beachFirst "beach" 8 9 "A" "B").
  - apply (bool_decide_unpack _). vm_compute. exact I.
  - reflexivity.
  - lia.
  - vm_compute. reflexivity.
  - intros rb rb' Hrb Hrb'. vm_compute in Hrb, Hrb'.
    apply elem_of_cons in Hrb as [->|Hrb];
      [|apply elem_of_cons in Hrb as [->|Hrb]; [|by apply elem_of_nil in Hrb]];
    (apply elem_of_cons in Hrb' as [->|Hrb'];
      [|apply elem_of_cons in Hrb' as [->|Hrb']; [|by apply elem_of_nil in Hrb']]);
    simpl; intros; first [reflexivity | discriminate].
  - eexists _, _. split.
    + exists [], [], []. vm_compute. reflexivity.
    + split; reflexivity.
Defined.



(** * Further properties of the code *)

(** ** Searching and cutting strings *)

Lemma hasChar_nil c : ~ hasChar c "".
Proof. intros (pre & post & Hs). by destruct pre. Qed.

Lemma hasChar_cons c a s : hasChar c (String a s) <-> a = c \/ hasChar c s.
Proof.
  split.
  - intros (pre & post & Hs). destruct pre as [|b pre]; simpl in Hs.
    + injection Hs as -> _. by left.
    + injection Hs as -> ->. right. by exists pre, post.
  - intros [->|(pre & post & ->)].
    + by exists "", s.
    + by exists (String a pre), post.
Qed.

Lemma hasChar_app c s t : hasChar c (s +:+ t) <-> hasChar c s \/ hasChar c t.
Proof.
  induction s as [|a s IH].
  - change ("" +:+ t) with t. split; [by right | intros [?%hasChar_nil|?]; done].
  - change (String a s +:+ t) with (String a (s +:+ t)).
    rewrite !hasChar_cons, IH. tauto.
Qed.

Lemma indexOf_bounds c s : -1 <= indexOf c s < Z.of_nat (String.length s).
Proof.
  induction s as [|a s IH]; simpl; [lia|].
  destruct (Ascii.eqb a c); [lia|].
  destruct (Z.ltb_spec (indexOf c s) 0); lia.
Qed.

Lemma lastIndexOf_bounds c s : -1 <= lastIndexOf c s < Z.of_nat (String.length s).
Proof.
  induction s as [|a s IH]; simpl; [lia|].
  destruct (Z.leb_spec 0 (lastIndexOf c s)); [lia|].
  destruct (Ascii.eqb a c); lia.
Qed.

(** [indexOf] answers [-1] exactly when the character is absent. *)
Lemma indexOf_absent c s : indexOf c s = -1 <-> ~ hasChar c s.
Proof.
  induction s as [|a s IH]; simpl.
  - split; [intros _; apply hasChar_nil | done].
  - rewrite hasChar_cons. destruct (Ascii.eqb_spec a c) as [->|Hne].
    + split; [lia | intros Hno; exfalso; apply Hno; by left].
    + pose proof (indexOf_bounds c s).
      destruct (Z.ltb_spec (indexOf c s) 0).
      * assert (indexOf c s = -1) as Hminus by lia.
        apply IH in Hminus. split; [intros _; tauto | done].
      * split; [lia|]. intros Hno. exfalso.
        assert (indexOf c s = -1); [apply IH; tauto | lia].
Qed.

Lemma lastIndexOf_absent c s : lastIndexOf c s = -1 <-> ~ hasChar c s.
Proof.
  induction s as [|a s IH]; simpl.
  - split; [intros _; apply hasChar_nil | done].
  - rewrite hasChar_cons. pose proof (lastIndexOf_bounds c s).
    destruct (Z.leb_spec 0 (lastIndexOf c s)).
    + split; [lia|]. intros Hno. exfalso.
      assert (lastIndexOf c s = -1); [apply IH; tauto | lia].
    + assert (lastIndexOf c s = -1) as Hminus by lia. apply IH in Hminus.
      destruct (Ascii.eqb_spec a c) as [->|Hne].
      * split; [lia | intros Hno; exfalso; apply Hno; by left].
      * split; [intros _; tauto | done].
Qed.

(** The first occurrence: nothing before it holds the character. *)
Lemma indexOf_first c pre rest :
  ~ hasChar c pre ->
  indexOf c (pre +:+ String c rest) = Z.of_nat (String.length pre).
Proof.
  induction pre as [|a pre IH]; simpl; intros Hno.
  - by rewrite Ascii.eqb_refl.
  - rewrite hasChar_cons in Hno. destruct (Ascii.eqb_spec a c) as [->|Hne]; [tauto|].
    rewrite IH by tauto. destruct (Z.ltb_spec (Z.of_nat (String.length pre)) 0); lia.
Qed.

(** The last occurrence: nothing after it holds the character. *)
Lemma lastIndexOf_last c pre post :
  ~ hasChar c post ->
  lastIndexOf c (pre +:+ String c post) = Z.of_nat (String.length pre).
Proof.
  intros Hno. induction pre as [|a pre IH]; simpl.
  - apply lastIndexOf_absent in Hno. rewrite Hno. simpl. by rewrite Ascii.eqb_refl.
  - rewrite IH. destruct (Z.leb_spec 0 (Z.of_nat (String.length pre))); lia.
Qed.

Lemma indexOf_split c s :
  0 <= indexOf c s ->
  exists pre rest,
    s = pre +:+ String c rest /\ ~ hasChar c pre
    /\ indexOf c s = Z.of_nat (String.length pre).
Proof.
  induction s as [|a s IH]; simpl; [lia|].
  destruct (Ascii.eqb_spec a c) as [->|Hne].
  - intros _. exists "", s. split; [done|]. split; [apply hasChar_nil | done].
  - destruct (Z.ltb_spec (indexOf c s) 0); [lia|]. intros _.
    destruct IH as (pre & rest & -> & Hno & Hi); [lia|].
    exists (String a pre), rest. split; [done|]. split.
    + rewrite hasChar_cons. tauto.
    + simpl. lia.
Qed.

Lemma lastIndexOf_split c s :
  0 <= lastIndexOf c s ->
  exists pre post,
    s = pre +:+ String c post /\ ~ hasChar c post
    /\ lastIndexOf c s = Z.of_nat (String.length pre).
Proof.
  induction s as [|a s IH]; simpl; [lia|].
  destruct (Z.leb_spec 0 (lastIndexOf c s)).
  - intros _. destruct IH as (pre & post & -> & Hno & Hi); [lia|].
    exists (String a pre), post. split; [done|]. split; [done|]. simpl. lia.
  - destruct (Ascii.eqb_spec a c) as [->|Hne]; [|lia]. intros _.
    exists "", s. split; [done|]. split; [|done].
    apply lastIndexOf_absent. pose proof (lastIndexOf_bounds c s). lia.
Qed.

Lemma app_string_cons a s t : String a s +:+ t = String a (s +:+ t).
Proof. reflexivity. Qed.

Lemma app_string_assoc s t u : (s +:+ t) +:+ u = s +:+ (t +:+ u).
Proof.
  induction s as [|a s IH]; [reflexivity|]. by rewrite !app_string_cons, IH.
Qed.

Lemma app_string_nil_r s : s +:+ "" = s.
Proof.
  induction s as [|a s IH]; [reflexivity|]. by rewrite app_string_cons, IH.
Qed.

Lemma substring_app_middle pre mid post :
  String.substring (String.length pre) (String.length mid) (pre +:+ mid +:+ post) = mid.
Proof.
  induction pre as [|a pre IH].
  - change ("" +:+ mid +:+ post) with (mid +:+ post).
    change (String.length "") with 0%nat.
    induction mid as [|b mid IHm]; [by destruct post|].
    rewrite app_string_cons. simpl. by rewrite IHm.
  - rewrite app_string_cons. simpl. exact IH.
Qed.

(** Cutting at the two ends of a middle part gives that part. *)
Lemma js_substring_middle pre mid post :
  js_substring (pre +:+ mid +:+ post)
    (Z.of_nat (String.length pre))
    (Z.of_nat (String.length pre + String.length mid))
  = mid.
Proof.
  unfold js_substring. rewrite !length_app_string.
  replace (Z.to_nat _) with (String.length pre) by lia.
  replace (Z.to_nat _) with (String.length mid) by lia.
  apply substring_app_middle.
Qed.

(** With a negative end the cut is the start of the string. *)
Lemma js_substring_negative_end pre post (b : Z) :
  b <= 0 ->
  js_substring (pre +:+ post) (Z.of_nat (String.length pre)) b = pre.
Proof.
  intros Hb. unfold js_substring. rewrite length_app_string.
  replace (Z.to_nat _) with 0%nat by lia.
  replace (Z.to_nat _) with (String.length pre) by lia.
  pose proof (substring_app_middle "" pre post) as Hsub. by simpl in Hsub.
Qed.

Lemma app_string_split pre1 s1 pre2 s2 :
  pre1 +:+ s1 = pre2 +:+ s2 ->
  (String.length pre1 <= String.length pre2)%nat ->
  exists mid, pre2 = pre1 +:+ mid /\ s1 = mid +:+ s2.
Proof.
  revert pre2. induction pre1 as [|a pre1 IH]; intros pre2.
  - change ("" +:+ s1) with s1. intros -> _. by exists pre2.
  - destruct pre2 as [|b pre2]; [simpl; lia|]. rewrite !app_string_cons.
    intros [= -> Heq] Hlen. simpl in Hlen.
    destruct (IH pre2 Heq) as (mid & -> & ->); [lia|]. by exists mid.
Qed.

Lemma app_string_snoc pre c s :
  pre +:+ String c s = (pre +:+ String c "") +:+ s.
Proof. by rewrite app_string_assoc. Qed.

(** A text cut at the first [c1] and at the last [c2]. *)
Lemma cut_between (c1 c2 : ascii) (pre mid post : string) :
  ~ hasChar c1 pre ->
  ~ hasChar c2 post ->
  indexOf c1 (pre +:+ String c1 (mid +:+ String c2 post))
  = Z.of_nat (String.length pre)
  /\ lastIndexOf c2 (pre +:+ String c1 (mid +:+ String c2 post))
     = Z.of_nat (String.length pre) + 1 + Z.of_nat (String.length mid)
  /\ js_substring (pre +:+ String c1 (mid +:+ String c2 post))
       (Z.of_nat (String.length pre) + 1)
       (Z.of_nat (String.length pre) + 1 + Z.of_nat (String.length mid))
     = mid
  /\ js_substring (pre +:+ String c1 (mid +:+ String c2 post))
       (Z.of_nat (String.length pre))
       (Z.of_nat (String.length pre) + 1 + Z.of_nat (String.length mid) + 1)
     = String c1 (mid +:+ String c2 "").
Proof.
  intros Hpre Hpost. split_and!.
  - by apply indexOf_first.
  - replace (pre +:+ String c1 (mid +:+ String c2 post))
      with ((pre +:+ String c1 mid) +:+ String c2 post)
      by (by rewrite app_string_assoc).
    rewrite (lastIndexOf_last c2 _ post Hpost), length_app_string. simpl. lia.
  - rewrite app_string_snoc.
    replace (Z.of_nat (String.length pre) + 1)
      with (Z.of_nat (String.length (pre +:+ String c1 "")))
      by (rewrite length_app_string; simpl; lia).
    rewrite <- Nat2Z.inj_add. apply js_substring_middle.
  - replace (pre +:+ String c1 (mid +:+ String c2 post))
      with (pre +:+ String c1 (mid +:+ String c2 "") +:+ post)
      by (by rewrite app_string_cons, app_string_assoc).
    replace (Z.of_nat (String.length pre) + 1 + Z.of_nat (String.length mid) + 1)
      with (Z.of_nat (String.length pre
                      + String.length (String c1 (mid +:+ String c2 ""))))
      by (simpl; rewrite length_app_string; simpl; lia).
    apply js_substring_middle.
Qed.

(** ** Unwrapping the reply *)

(** X1: a reply of the form [callback(payload)trailer], with no opening
    parenthesis in the callback name and no closing one in the trailer, is
    unwrapped to exactly [payload], whatever parentheses the payload
    holds. *)
Theorem jsonp_payload_unwraps (pre payload post : string) :
  ~ hasChar "(" pre ->
  ~ hasChar ")" post ->
  jsonp_payload (pre +:+ "(" +:+ payload +:+ ")" +:+ post) = payload.
Proof.
  intros Hpre Hpost.
  destruct (cut_between "(" ")" pre payload post Hpre Hpost) as (Hi & Hj & Hcut & _).
  unfold jsonp_payload.
  change (pre +:+ "(" +:+ payload +:+ ")" +:+ post)
    with (pre +:+ String "(" (payload +:+ String ")" post)).
  by rewrite Hi, Hj.
Qed.

Lemma jsonp_payload_unwraps_witness :
  jsonp_payload ("handleResponse" +:+ "(" +:+ "{(1)}" +:+ ")" +:+ ";") = "{(1)}".
Proof.
  apply (jsonp_payload_unwraps "handleResponse" "{(1)}" ";");
    apply indexOf_absent; reflexivity.
Defined.

(** X2: when the reply has no closing parenthesis, [lastIndexOf] answers
    [-1] and [substring] swaps its arguments: what is handed to
    [JSON.parse] is the reply up to and including its first opening
    parenthesis, or the empty text when it has none. *)
Theorem jsonp_payload_unclosed (text : string) :
  ~ hasChar ")" text ->
  (~ hasChar "(" text -> jsonp_payload text = "")
  /\ (forall pre rest,
        text = pre +:+ "(" +:+ rest -> ~ hasChar "(" pre ->
        jsonp_payload text = pre +:+ "(").
Proof.
  intros Hclose. apply lastIndexOf_absent in Hclose. unfold jsonp_payload.
  rewrite Hclose. split.
  - intros Hopen. apply indexOf_absent in Hopen. rewrite Hopen.
    unfold js_substring. simpl. by destruct text.
  - intros pre rest -> Hpre.
    change (pre +:+ "(" +:+ rest) with (pre +:+ String "(" rest).
    rewrite (indexOf_first "(" pre rest Hpre), app_string_snoc.
    replace (Z.of_nat (String.length pre) + 1)
      with (Z.of_nat (String.length (pre +:+ "(")))
      by (rewrite length_app_string; simpl; lia).
    by apply js_substring_negative_end.
Qed.

Lemma jsonp_payload_unclosed_witness : jsonp_payload "abc(def" = "abc(".
Proof.
  refine (proj2 (jsonp_payload_unclosed "abc(def" _) "abc" "def" eq_refl _);
    apply indexOf_absent; reflexivity.
Defined.

(** X3: the brace pattern matches exactly when the content has an opening
    brace with a closing brace somewhere after it, and the match runs from
    the first opening brace to the last closing brace, both included. *)
Theorem match_braces_spec (content jsonMatch : string) :
  match_braces content = Some jsonMatch <->
  exists pre body post,
    content = pre +:+ "{" +:+ body +:+ "}" +:+ post
    /\ ~ hasChar "{" pre
    /\ ~ hasChar "}" post
    /\ jsonMatch = "{" +:+ body +:+ "}".
Proof.
  unfold match_braces. split.
  - destruct (Z.leb_spec 0 (indexOf "{" content)) as [Hi|]; [|done].
    destruct (Z.ltb_spec (indexOf "{" content) (lastIndexOf "}" content))
      as [Hij|]; [|done].
    simpl. intros [= <-].
    destruct (indexOf_split "{" content Hi) as (pre & rest & Hcontent & Hpre & Hi').
    destruct (lastIndexOf_split "}" content)
      as (pre2 & post & Hcontent2 & Hpost & Hj'); [lia|].
    destruct (app_string_split (pre +:+ String "{" "") rest pre2 (String "}" post))
      as (body & -> & _).
    { by rewrite <- app_string_snoc, <- Hcontent. }
    { rewrite length_app_string. simpl. lia. }
    assert (Hshape : content = pre +:+ String "{" (body +:+ String "}" post)).
    { by rewrite Hcontent2, !app_string_assoc. }
    exists pre, body, post. split; [exact Hshape|]. split; [done|]. split; [done|].
    destruct (cut_between "{" "}" pre body post Hpre Hpost) as (Hfirst & Hlast & _ & Hcut).
    rewrite Hshape, Hfirst, Hlast. exact Hcut.
  - intros (pre & body & post & -> & Hpre & Hpost & ->).
    change (pre +:+ "{" +:+ body +:+ "}" +:+ post)
      with (pre +:+ String "{" (body +:+ String "}" post)).
    destruct (cut_between "{" "}" pre body post Hpre Hpost) as (Hfirst & Hlast & _ & Hcut).
    rewrite Hfirst, Hlast, Hcut.
    destruct (Z.leb_spec 0 (Z.of_nat (String.length pre))); [|lia].
    destruct (Z.ltb_spec (Z.of_nat (String.length pre))
                (Z.of_nat (String.length pre) + 1 + Z.of_nat (String.length body)));
      [done | lia].
Qed.

(** ** More on the fallback scorer *)

Lemma includes_empty s : includes s "" = true.
Proof. by destruct s. Qed.

(** The truncated keyword is a prefix of the keyword. *)
Lemma slice_0_minus2_prefix s : exists rest, s = slice_0_minus2 s +:+ rest.
Proof.
  destruct (slice_0_minus2_spec s) as [(a & b & Hs)|[_ ->]].
  - by exists (String a (String b "")).
  - by exists s.
Qed.

Lemma occursIn_truncated kw text :
  occursIn kw text -> occursIn (slice_0_minus2 kw) text.
Proof.
  intros (pre & post & ->). destruct (slice_0_minus2_prefix kw) as (rest & Hkw).
  exists pre, (rest +:+ post). by rewrite Hkw at 1; rewrite !app_string_assoc.
Qed.

(** The base score is 1 exactly when not even the truncated keyword
    occurs. *)
Lemma baseScore_truncated queryLower kw :
  (occursIn (slice_0_minus2 kw) queryLower -> 7 <= baseScore queryLower kw)
  /\ (~ occursIn (slice_0_minus2 kw) queryLower -> baseScore queryLower kw = 1).
Proof.
  unfold baseScore. split.
  - intros Hocc%includes_spec. rewrite Hocc. by case_match.
  - intros Hno. destruct (includes queryLower kw) eqn:Hfull.
    + apply includes_spec, occursIn_truncated in Hfull. done.
    + apply includes_false in Hno. by rewrite Hno.
Qed.

(** No keyword gets more than 3 from the rules: each keyword is named by
    one rule only. *)
Lemma phraseBonus_le_3 queryLower kw : phraseBonus queryLower kw <= 3.
Proof.
  unfold phraseBonus, bonusRules, ruleBonus. cbn [foldr fst snd].
  repeat match goal with
         | |- context [existsb ?f ?l] => destruct (existsb f l)
         end;
    repeat (case_decide; simplify_eq/=); lia.
Qed.

Lemma phraseBonus_untriggered queryLower kw :
  Forall (fun phrase => ~ occursIn phrase queryLower) triggerPhrases ->
  phraseBonus queryLower kw = 0.
Proof.
  intros Hnone. unfold triggerPhrases, bonusRules in Hnone. cbn in Hnone.
  repeat (apply Forall_cons in Hnone as [?%includes_false Hnone]).
  unfold phraseBonus, bonusRules, ruleBonus. cbn [foldr fst snd existsb].
  repeat match goal with H : includes _ _ = false |- _ => rewrite H; clear H end.
  done.
Qed.

(** X4: a keyword of the vocabulary that occurs in the lower-cased query
    scores 9 or 10. *)
Theorem fallback_keyword_in_query `{JSHost} (vocabulary : list string)
    (query kw : string) :
  kw ∈ vocabulary ->
  occursIn kw (toLowerCase query) ->
  exists z, fallbackScoringOver vocabulary query !! kw = Some (Num z)
            /\ 9 <= z <= 10.
Proof.
  intros Hin Hocc%includes_spec. rewrite fallbackScoringOver_in by done.
  eexists. split; [done|].
  pose proof (phraseBonus_nonneg (toLowerCase query) kw).
  unfold baseScore. rewrite Hocc. lia.
Qed.

Lemma fallback_keyword_in_query_witness :
  exists z, (@fallbackScoring exampleHost "Beaches of Goa") !! "beach" = Some (Num z)
            /\ 9 <= z <= 10.
Proof.
  apply (@fallback_keyword_in_query exampleHost PREDEFINED_KEYWORDS
           "Beaches of Goa" "beach").
  - apply list_elem_of_here.
  - by exists "", "es of goa".
Defined.

(** X5: a keyword scores 7 or more exactly when its truncated form occurs
    in the lower-cased query; otherwise its score is 1 plus its bonus, at
    most 4, so that the phrase bonuses alone never lift a keyword over the
    bar 5 of the first ranking pass. *)
Theorem fallback_bonus_alone_below_bar `{JSHost} (vocabulary : list string)
    (query kw : string) (z : Z) :
  kw ∈ vocabulary ->
  fallbackScoringOver vocabulary query !! kw = Some (Num z) ->
  (7 <= z <-> occursIn (slice_0_minus2 kw) (toLowerCase query))
  /\ (~ occursIn (slice_0_minus2 kw) (toLowerCase query) ->
      z = 1 + phraseBonus (toLowerCase query) kw /\ z <= 4).
Proof.
  intros Hin. rewrite fallbackScoringOver_in by done. intros [= <-].
  pose proof (phraseBonus_nonneg (toLowerCase query) kw).
  pose proof (phraseBonus_le_3 (toLowerCase query) kw).
  destruct (baseScore_truncated (toLowerCase query) kw) as [Hocc Hno].
  destruct (includes (toLowerCase query) (slice_0_minus2 kw)) eqn:Hshort.
  - apply includes_spec in Hshort. specialize (Hocc Hshort).
    split; [split; [done | lia] | done].
  - apply includes_false in Hshort. specialize (Hno Hshort). rewrite Hno.
    split; [split; [lia | done] | lia].
Qed.

Lemma fallback_bonus_alone_below_bar_witness :
  (7 <= 4 <-> occursIn (slice_0_minus2 "mountain") (string_lower "a hiking trip"))
  /\ (~ occursIn (slice_0_minus2 "mountain") (string_lower "a hiking trip") ->
      4 = 1 + phraseBonus (string_lower "a hiking trip") "mountain" /\ 4 <= 4).
Proof.
  apply (@fallback_bonus_alone_below_bar exampleHost PREDEFINED_KEYWORDS
           "a hiking trip" "mountain" 4).
  - apply list_elem_of_further, list_elem_of_here.
  - reflexivity.
Defined.

(** X6: when none of the eight trigger phrases occurs in the lower-cased
    query, every keyword keeps its base score of 1, 7 or 9. *)
Theorem fallback_without_phrases `{JSHost} (vocabulary : list string)
    (query kw : string) :
  Forall (fun phrase => ~ occursIn phrase (toLowerCase query)) triggerPhrases ->
  kw ∈ vocabulary ->
  fallbackScoringOver vocabulary query !! kw
  = Some (Num (baseScore (toLowerCase query) kw))
  /\ (baseScore (toLowerCase query) kw = 1
      \/ baseScore (toLowerCase query) kw = 7
      \/ baseScore (toLowerCase query) kw = 9).
Proof.
  intros Hnone Hin. rewrite fallbackScoringOver_in by done.
  rewrite phraseBonus_untriggered by done.
  destruct (baseScore_cases (toLowerCase query) kw) as [Hb|[Hb|Hb]];
    rewrite Hb; split; auto.
Qed.

Lemma fallback_without_phrases_witness :
  (@fallbackScoring exampleHost "sunny beach") !! "beach"
  = Some (Num (baseScore (string_lower "sunny beach") "beach"))
  /\ (baseScore (string_lower "sunny beach") "beach" = 1
      \/ baseScore (string_lower "sunny beach") "beach" = 7
      \/ baseScore (string_lower "sunny beach") "beach" = 9).
Proof.
  apply (@fallback_without_phrases exampleHost PREDEFINED_KEYWORDS
           "sunny beach" "beach").
  - unfold triggerPhrases, bonusRules. cbn [concat map fst app].
    repeat (apply Forall_cons; split; [by apply includes_false|]).
    constructor.
  - apply list_elem_of_here.
Defined.

(** ** More on the ranker *)

Lemma sumScores_app pairs1 pairs2 :
  sumScores (pairs1 ++ pairs2) = sumScores pairs1 + sumScores pairs2.
Proof. induction pairs1 as [|p pairs1 IH]; simpl; lia. Qed.


Lemma sumScores_nonneg threshold pairs :
  0 <= threshold ->
  Forall (fun p => threshold < score p) pairs -> 0 <= sumScores pairs.
Proof. intros Ht. induction 1 as [|p pairs Hp _ IH]; simpl; lia. Qed.

Lemma sumScores_elem_of threshold pairs p :
  0 <= threshold ->
  Forall (fun q => threshold < score q) pairs ->
  p ∈ pairs -> score p <= sumScores pairs.
Proof.
  intros Ht Hall (l1 & l2 & ->)%list_elem_of_split.
  apply Forall_app in Hall as [H1 [_ H2]%Forall_cons].
  rewrite sumScores_app. simpl.
  pose proof (sumScores_nonneg threshold l1 Ht H1).
  pose proof (sumScores_nonneg threshold l2 Ht H2). lia.
Qed.

Lemma omap_nil_inv {A B : Type} (f : A -> option B) (l : list A) :
  omap f l = [] -> Forall (fun x => f x = None) l.
Proof.
  induction l as [|x l IH]; [constructor|]. rewrite omap_cons.
  destruct (f x) eqn:Hx; [done|]. intros Hl. constructor; auto.
Qed.

Lemma omap_sublist_fmap {A B C : Type} (f : A -> option B) (g : A -> C)
    (h : B -> C) (l : list A) :
  (forall x y, f x = Some y -> h y = g x) ->
  (h <$> omap f l) `sublist_of` (g <$> l).
Proof.
  intros Hfg. induction l as [|x l IH]; [constructor|].
  rewrite omap_cons, fmap_cons. destruct (f x) as [y|] eqn:Hx.
  - rewrite fmap_cons, (Hfg x y Hx). by constructor.
  - by constructor.
Qed.

Section MoreRankerFacts.
Context `{JSHost}.

Lemma rankEntity_fields threshold scores destination r :
  rankEntity threshold scores destination = Some r ->
  r_id r = d_id destination /\ r_name r = d_name destination
  /\ r_image r = d_image destination
  /\ r_description r = d_description destination
  /\ r_region r = d_region destination /\ r_icon r = d_icon destination.
Proof. unfold rankEntity. case_match; [done|]. by intros [= <-]. Qed.

Lemma elem_of_findMatchingDestinations catalog scores r :
  r ∈ findMatchingDestinations catalog scores <->
  exists d, d ∈ catalog
            /\ rankEntity (activeThreshold catalog scores) scores d = Some r.
Proof.
  rewrite findMatchingDestinations_spec, elem_of_sort_desc.
  apply list_elem_of_omap.
Qed.


Lemma matched_elem_of threshold scores destination r p :
  rankEntity threshold scores destination = Some r ->
  p ∈ matchedKeywords r ->
  p ∈ contributing threshold scores destination.
Proof.
  intros (_ & _ & -> & _)%rankEntity_Some Hp.
  apply elem_of_sort_desc with (key := score).
  eapply elem_of_sublist; [exact Hp | apply sublist_take].
Qed.

End MoreRankerFacts.

(** X8: every result is built from one entity of the catalog: it carries
    that entity's identifier, name, image, description, region and icon
    unchanged, and each of its matched pairs is a keyword of that entity
    with the score the score object holds for it. *)
Theorem results_come_from_catalog `{JSHost} (catalog : list Destination)
    (scores : gmap string jsnum) :
  Forall (fun r =>
            exists d, d ∈ catalog
              /\ r_id r = d_id d /\ r_name r = d_name d
              /\ r_image r = d_image d /\ r_description r = d_description d
              /\ r_region r = d_region d /\ r_icon r = d_icon d
              /\ Forall (fun p => keyword p ∈ keywordList d
                                  /\ scoreOf scores (keyword p) = Some (score p))
                        (matchedKeywords r))
         (findMatchingDestinations catalog scores).
Proof.
  apply Forall_forall. intros r (d & Hd & Hr)%elem_of_findMatchingDestinations.
  exists d. split; [done|].
  destruct (rankEntity_fields _ _ _ _ Hr) as (? & ? & ? & ? & ? & ?).
  split_and!; try done.
  apply Forall_forall. intros p Hp.
  apply (matched_elem_of _ _ _ _ _ Hr), contributing_elem_of in Hp. tauto.
Qed.

Lemma pass_ids_sublist `{JSHost} (catalog : list Destination)
    (scores : gmap string jsnum) :
  (r_id <$> rankPass (activeThreshold catalog scores) scores catalog)
  `sublist_of` (d_id <$> catalog).
Proof.
  apply omap_sublist_fmap. intros d r Hr. by apply rankEntity_Some in Hr as (? & _).
Qed.

Lemma result_ids_NoDup `{JSHost} (catalog : list Destination)
    (scores : gmap string jsnum) :
  NoDup (d_id <$> catalog) ->
  NoDup (r_id <$> findMatchingDestinations catalog scores).
Proof.
  intros Hnodup. rewrite findMatchingDestinations_spec, sort_desc_Permutation.
  exact (sublist_NoDup _ _ Hnodup (pass_ids_sublist catalog scores)).
Qed.

(** X9: there are at most as many results as entities, and when the
    identifiers of the catalog are distinct no identifier is returned
    twice. *)
Theorem results_at_most_one_per_entity `{JSHost} (catalog : list Destination)
    (scores : gmap string jsnum) :
  (length (findMatchingDestinations catalog scores) <= length catalog)%nat
  /\ (NoDup (d_id <$> catalog) ->
      NoDup (r_id <$> findMatchingDestinations catalog scores)).
Proof.
  split; [|apply result_ids_NoDup].
  rewrite findMatchingDestinations_spec, length_sort_desc.
  pose proof (pass_ids_sublist catalog scores) as Hsub.
  apply sublist_length in Hsub. by rewrite !length_fmap in Hsub.
Qed.

Lemma results_at_most_one_per_entity_witness :
  NoDup (r_id <$> @findMatchingDestinations exampleHost DEFAULT_DESTINATIONS
                    (@fallbackScoring exampleHost "beach vacation photography")).
Proof.
  apply (@results_at_most_one_per_entity exampleHost DEFAULT_DESTINATIONS).
  apply (bool_decide_unpack _). vm_compute. exact I.
Defined.


(** Two entities have four keywords of score 9: three are shown, the
    total counts four. *)
Example total_exceeds_shown_pairs :
  (fun r => (r_id r, sumScores (matchedKeywords r), r_score r))
    <$> @findMatchingDestinations exampleHost DEFAULT_DESTINATIONS
          (@fallbackScoring exampleHost "island beach summer photography")
  = [("D-001", 27, 36); ("D-005", 27, 36); ("D-002", 9, 9); ("D-003", 9, 9);
     ("D-004", 9, 9)].
Proof. vm_compute. reflexivity. Qed.

(** X11: when the first loop pushes nothing, no keyword of any entity
    scores above 5, so every matched pair of the results of the second
    loop has a score above 3 and at most 5. *)
Theorem second_pass_scores `{JSHost} (catalog : list Destination)
    (scores : gmap string jsnum) :
  omap (firstPassEntry scores) catalog = [] ->
  Forall (fun r => Forall (fun p => 3 < score p <= 5) (matchedKeywords r))
         (findMatchingDestinations catalog scores).
Proof.
  intros Hfirst. rewrite firstPass_spec in Hfirst.
  destruct (activeThreshold_cases catalog scores) as [[_ Hbar]|[Hsome _]]; [|done].
  apply Forall_forall. intros r (d & Hd & Hr)%elem_of_findMatchingDestinations.
  rewrite Hbar in Hr. apply Forall_forall. intros p Hp.
  apply (matched_elem_of _ _ _ _ _ Hr), contributing_elem_of in Hp
    as (Hkw & Hscore & Hlow).
  apply omap_nil_inv in Hfirst. eapply Forall_forall in Hfirst; [|exact Hd].
  apply rankEntity_None in Hfirst.
  destruct (sumScores_above 5 _ ltac:(lia) (contributing_above 5 scores d))
    as [[Hnil _]|[_ Hpos]]; [|lia].
  destruct (decide (5 < score p)) as [Hhigh|]; [|lia].
  assert (Hin : p ∈ contributing 5 scores d) by (by apply contributing_elem_of).
  rewrite Hnil in Hin. by apply elem_of_nil in Hin.
Qed.

Lemma second_pass_scores_witness :
  Forall (fun r => Forall (fun p => 3 < score p <= 5) (matchedKeywords r))
         (@findMatchingDestinations exampleHost exampleCatalog allFour).
Proof.
  apply (@second_pass_scores exampleHost exampleCatalog allFour). reflexivity.
Defined.

Section ScoresThatMatter.
Context `{JSHost}.

Lemma scoreOf_Some scores kw s :
  scoreOf scores kw = Some s <-> scores !! ToPropertyKey kw = Some (Num s).
Proof.
  unfold scoreOf. destruct (scores !! ToPropertyKey kw) as [[s'|]|]; [|done..].
  split; intros [= ->]; done.
Qed.

Lemma contribution_ext threshold scores scores' kw :
  3 <= threshold ->
  (forall key s, 3 < s ->
     scores !! key = Some (Num s) <-> scores' !! key = Some (Num s)) ->
  contribution threshold scores kw = contribution threshold scores' kw.
Proof.
  intros Ht Hsame. apply option_eq. intros p.
  rewrite !contribution_Some, !scoreOf_Some.
  split; intros (Hkw & Hscore & Hlt); (split; [done|]); (split; [|done]);
    apply Hsame in Hscore; (done || lia).
Qed.

Lemma rankEntity_ext threshold scores scores' destination :
  (forall kw, contribution threshold scores kw = contribution threshold scores' kw) ->
  rankEntity threshold scores destination = rankEntity threshold scores' destination.
Proof.
  intros Hsame. unfold rankEntity, contributing.
  replace (omap (contribution threshold scores') (keywordList destination))
    with (omap (contribution threshold scores) (keywordList destination)); [done|].
  induction (keywordList destination) as [|kw kws IH]; [done|].
  by rewrite !omap_cons, Hsame, IH.
Qed.

Lemma rankPass_ext threshold scores scores' catalog :
  (forall kw, contribution threshold scores kw = contribution threshold scores' kw) ->
  rankPass threshold scores catalog = rankPass threshold scores' catalog.
Proof.
  intros Hsame. unfold rankPass.
  induction catalog as [|d catalog IH]; [done|].
  by rewrite !omap_cons, (rankEntity_ext _ _ _ _ Hsame), IH.
Qed.

Lemma contribution_low threshold scores kw :
  3 <= threshold ->
  (forall key s, scores !! key = Some (Num s) -> s <= 3) ->
  contribution threshold scores kw = None.
Proof.
  intros Ht Hlow. unfold contribution, scoreOf.
  destruct (scores !! ToPropertyKey kw) as [[s|]|] eqn:Hs; try done.
  apply Hlow in Hs. destruct (Z.ltb_spec threshold s); [lia | done].
Qed.
End ScoresThatMatter.

(** X12: the ranking depends on the score object only through the scores
    above 3: two score objects that hold the same scores above 3 under the
    same keys give the same results, whatever else they hold (lower
    scores, [NaN], other keys). *)
Theorem ranking_reads_scores_above_3 `{JSHost} (catalog : list Destination)
    (scores scores' : gmap string jsnum) :
  (forall key s, 3 < s ->
     scores !! key = Some (Num s) <-> scores' !! key = Some (Num s)) ->
  findMatchingDestinations catalog scores
  = findMatchingDestinations catalog scores'.
Proof.
  intros Hsame.
  assert (Hpass : forall t, 3 <= t ->
            rankPass t scores catalog = rankPass t scores' catalog).
  { intros t Ht. apply rankPass_ext. intros kw. by apply contribution_ext. }
  assert (Hbar : activeThreshold catalog scores = activeThreshold catalog scores').
  { unfold activeThreshold. rewrite !firstPass_spec. by rewrite (Hpass 5) by lia. }
  rewrite !findMatchingDestinations_spec, <- Hbar.
  rewrite (Hpass (activeThreshold catalog scores)); [done|].
  destruct (activeThreshold_cases catalog scores) as [[_ ->]|[_ ->]]; lia.
Qed.

Lemma ranking_reads_scores_above_3_witness :
  @findMatchingDestinations exampleHost exampleCatalog beachFirst
  = @findMatchingDestinations exampleHost exampleCatalog
      (<["island" := Num 2]> beachFirst).
Proof.
  apply (@ranking_reads_scores_above_3 exampleHost exampleCatalog).
  intros key s Hs. destruct (decide (key = "island")) as [->|Hne].
  - rewrite lookup_insert_eq. split; [done | intros [= <-]; lia].
  - by rewrite lookup_insert_ne.
Defined.

Lemma passes_empty_of_low_scores `{JSHost} (catalog : list Destination)
    (scores : gmap string jsnum) :
  (forall key s, scores !! key = Some (Num s) -> s <= 3) ->
  omap (firstPassEntry scores) catalog = []
  /\ omap (secondPassEntry scores) catalog = []
  /\ findMatchingDestinations catalog scores = [].
Proof.
  intros Hlow.
  assert (Hpass : forall t, 3 <= t -> rankPass t scores catalog = []).
  { intros t Ht. apply omap_nil_all, Forall_forall. intros d _.
    apply rankEntity_None. unfold contributing.
    rewrite omap_nil_all; [done|]. apply Forall_forall. intros kw _.
    by apply contribution_low. }
  rewrite firstPass_spec, secondPass_spec, findMatchingDestinations_spec.
  rewrite !Hpass; [done | | lia | lia].
  destruct (activeThreshold_cases catalog scores) as [[_ ->]|[_ ->]]; lia.
Qed.

(** X13: when no score is above 3 both loops push nothing and the ranker
    returns no result, for every catalog. *)
Theorem no_results_without_score_above_3 `{JSHost} (catalog : list Destination)
    (scores : gmap string jsnum) :
  (forall key s, scores !! key = Some (Num s) -> s <= 3) ->
  omap (firstPassEntry scores) catalog = []
  /\ omap (secondPassEntry scores) catalog = []
  /\ findMatchingDestinations catalog scores = [].
Proof. apply passes_empty_of_low_scores. Qed.

Lemma no_results_without_score_above_3_witness :
  omap (@firstPassEntry exampleHost (<["beach" := Num 3]> ∅)) exampleCatalog = []
  /\ omap (@secondPassEntry exampleHost (<["beach" := Num 3]> ∅)) exampleCatalog = []
  /\ @findMatchingDestinations exampleHost exampleCatalog (<["beach" := Num 3]> ∅) = [].
Proof.
  apply (@no_results_without_score_above_3 exampleHost exampleCatalog).
  intros key s [[_ [= <-]]|[_ Hs]]%lookup_insert_Some; [lia|].
  by rewrite lookup_empty in Hs.
Defined.

(** ** Rendering *)

Lemma StronglySorted_filter {A : Type} (R : relation A) (P : A -> Prop)
    `{!forall x, Decision (P x)} (l : list A) :
  StronglySorted R l -> StronglySorted R (filter P l).
Proof.
  induction 1 as [|x l Hl IH Hx]; [constructor|].
  rewrite filter_cons. case_decide; [|done]. constructor; [done|].
  apply Forall_forall. intros y [_ Hy]%list_elem_of_filter.
  by eapply Forall_forall in Hx.
Qed.

Lemma filter_none {A : Type} (P : A -> Prop) `{!forall x, Decision (P x)}
    (l : list A) :
  Forall (fun x => ~ P x) l -> filter P l = [].
Proof.
  induction 1 as [|x l Hx _ IH]; [done|]. rewrite filter_cons.
  by rewrite decide_False.
Qed.

Lemma topEntries_sorted entries :
  StronglySorted (fun a b : string * Z => b.2 <= a.2) (topEntries entries).
Proof.
  unfold topEntries. apply StronglySorted_take, StronglySorted_filter.
  apply (sort_desc_sorted snd).
Qed.

Lemma elem_of_topEntries entries e :
  e ∈ topEntries entries -> e ∈ entries /\ 5 < e.2.
Proof.
  unfold topEntries. intros He.
  assert (Hin : e ∈ filter (fun entry : string * Z => 5 < entry.2)
                    (sort_desc snd entries)).
  { eapply elem_of_sublist; [exact He | apply sublist_take]. }
  apply list_elem_of_filter in Hin as [Hhigh Hin].
  by apply elem_of_sort_desc in Hin.
Qed.

Lemma topEntries_nil entries :
  topEntries entries = [] <-> Forall (fun e => e.2 <= 5) entries.
Proof.
  unfold topEntries. split.
  - intros Hnil. apply Forall_forall. intros e He.
    destruct (decide (5 < e.2)) as [Hhigh|]; [|lia]. exfalso.
    assert (Hin : e ∈ filter (fun entry : string * Z => 5 < entry.2)
                      (sort_desc snd entries)).
    { apply list_elem_of_filter. split; [done | by apply elem_of_sort_desc]. }
    destruct (filter _ (sort_desc snd entries)) as [|e' rest];
      [by apply elem_of_nil in Hin | done].
  - intros Hlow.
    replace (filter _ (sort_desc snd entries)) with (@nil (string * Z)); [done|].
    symmetry. apply filter_none.
    rewrite sort_desc_Permutation. eapply Forall_impl; [exact Hlow|]. simpl. lia.
Qed.

(** X14: the explanation names at most three keywords, each with a score
    above 5, in order of decreasing score, and they are the best ones: an
    entry above 5 that is not named scores no more than any named one.
    No keyword is named exactly when no score is above 5. *)
Theorem top_keywords_are_the_best (entries : list (string * Z)) :
  (length (topKeywords entries) <= 3)%nat
  /\ Forall (fun e => e ∈ entries /\ 5 < e.2) (topEntries entries)
  /\ StronglySorted (fun a b : string * Z => b.2 <= a.2) (topEntries entries)
  /\ (forall e, e ∈ entries -> 5 < e.2 ->
        e ∈ topEntries entries
        \/ (length (topEntries entries) = 3%nat
            /\ Forall (fun e' => e.2 <= e'.2) (topEntries entries)))
  /\ (topKeywords entries = [] <-> Forall (fun e => e.2 <= 5) entries).
Proof.
  split_and!.
  - unfold topKeywords, topEntries. rewrite length_fmap, length_take. lia.
  - apply Forall_forall. intros e. apply elem_of_topEntries.
  - apply topEntries_sorted.
  - intros e He Hhigh. unfold topEntries.
    set (kept := filter (fun entry : string * Z => 5 < entry.2)
                   (sort_desc snd entries)).
    assert (Hin : e ∈ kept).
    { apply list_elem_of_filter. split; [done | by apply elem_of_sort_desc]. }
    assert (Hsorted : StronglySorted (fun a b : string * Z => b.2 <= a.2) kept).
    { apply StronglySorted_filter, (sort_desc_sorted snd). }
    rewrite <- (take_drop 3 kept) in Hin, Hsorted.
    apply elem_of_app in Hin as [Hshown|Hhidden]; [by left|]. right. split.
    + rewrite length_take. apply list_elem_of_lookup in Hhidden as [i Hi].
      apply lookup_lt_Some in Hi. rewrite length_drop in Hi. lia.
    + apply Forall_forall. intros e' He'.
      by apply (StronglySorted_app_1_elem_of _ _ _ _ _ Hsorted).
  - unfold topKeywords. rewrite <- topEntries_nil.
    split; [by intros ?%fmap_nil_inv | by intros ->].
Qed.

Lemma utf16_dots : utf16 "..." = [46%N; 46%N; 46%N].
Proof. reflexivity. Qed.

(** X15: the description shown is the whole description when it has at
    most 60 UTF-16 code units, and otherwise its first 60 code units
    followed by three dots; it is never longer than 63 code units. *)
Theorem description_snippet_bounds (description : string) :
  ((js_length description <= 60)%nat ->
   descriptionSnippet description = utf16 description)
  /\ ((60 < js_length description)%nat ->
      exists head rest,
        utf16 description = head ++ rest /\ length head = 60%nat
        /\ rest <> [] /\ descriptionSnippet description = head ++ utf16 "...")
  /\ (length (descriptionSnippet description) <= 63)%nat.
Proof.
  unfold descriptionSnippet, js_length. split_and!.
  - intros Hshort. rewrite take_ge by done.
    destruct (Nat.ltb_spec 60 (length (utf16 description))); [lia|].
    apply app_nil_r.
  - intros Hlong.
    exists (take 60 (utf16 description)), (drop 60 (utf16 description)).
    split; [by rewrite take_drop|]. split; [rewrite length_take; lia|]. split.
    + intros Hnil. apply (f_equal length) in Hnil.
      rewrite length_drop in Hnil. simpl in Hnil. lia.
    + by destruct (Nat.ltb_spec 60 (length (utf16 description))); [|lia].
  - rewrite length_app, length_take.
    destruct (Nat.ltb_spec 60 (length (utf16 description)));
      rewrite ?utf16_dots; cbn [length]; lia.
Qed.

(** Forty accented letters are eighty bytes and forty code units: the
    description is shown whole.  Sixty-one plain letters are cut to sixty
    and the dots. *)
Example accented_description_shown_whole :
  let accented := String.concat "" (replicate 40 (String "195" (String "169" ""))) in
  let plain := String.concat "" (replicate 61 "a") in
  String.length accented = 80%nat
  /\ js_length accented = 40%nat
  /\ descriptionSnippet accented = replicate 40 233%N
  /\ descriptionSnippet plain = replicate 60 97%N ++ [46%N; 46%N; 46%N].
Proof. split_and!; vm_compute; reflexivity. Qed.

(** Code units of plain, accented and astral text. *)
Example utf16_examples :
  utf16 "Goa" = [71%N; 111%N; 97%N]
  /\ utf16 (String "195" (String "169" "")) = [233%N]
  /\ utf16 (String "226" (String "130" (String "172" ""))) = [8364%N]
  /\ utf16 (String "240" (String "159" (String "152" (String "128" ""))))
     = [55357%N; 56832%N].
Proof. split_and!; reflexivity. Qed.

Section PanelFacts.
Context `{JSHost}.

Lemma displaySearchResults_parts destinations query entries :
  displaySearchResults destinations query entries
  = (if decide (topKeywords entries = []) then []
     else [ExplanationItem (topKeywords entries)])
    ++ (if decide (destinations = []) then [NoResultsItem]
        else renderResult <$> take 5 destinations).
Proof.
  unfold displaySearchResults.
  destruct (topKeywords entries) as [|kw kws]; destruct destinations as [|r rs];
    done.
Qed.

Lemma loaded_icon_truthy response d :
  d ∈ loadDestinations response -> field_truthy (d_icon d) = true.
Proof.
  assert (Hdefault : Forall (fun d => field_truthy (d_icon d) = true)
                       DEFAULT_DESTINATIONS).
  { unfold DEFAULT_DESTINATIONS. repeat constructor. }
  assert (Hdb : forall dest, field_truthy (d_icon (fromDatabase dest)) = true).
  { intros dest. unfold fromDatabase, field_or. simpl.
    destruct (Icon dest) as [icon|]; [|done].
    by destruct (String.eqb icon "") eqn:Hicon; simpl; [|rewrite Hicon]. }
  unfold loadDestinations. intros Hd.
  destruct response as [[[] [dests|]]|];
    try (by eapply Forall_forall in Hdefault).
  apply list_elem_of_fmap in Hd as (dest & -> & _). apply Hdb.
Qed.
End PanelFacts.

Lemma renderResult_items `{JSHost} (rs : list MatchResult) (item : PanelItem) :
  item ∈ renderResult <$> rs -> exists r, r ∈ rs /\ item = renderResult r.
Proof. intros (r & -> & Hr)%list_elem_of_fmap. by exists r. Qed.

(** X16: the panel is never empty and never holds more than six items:
    the explanation when a keyword scores above 5, then either the
    no-results item or one item per destination for the first five
    destinations, in the order given. *)
Theorem panel_shape `{JSHost} (destinations : list MatchResult) (query : string)
    (entries : list (string * Z)) :
  displaySearchResults destinations query entries <> []
  /\ (length (displaySearchResults destinations query entries) <= 6)%nat
  /\ (NoResultsItem ∈ displaySearchResults destinations query entries <->
      destinations = [])
  /\ (ExplanationItem (topKeywords entries)
        ∈ displaySearchResults destinations query entries <->
      ~ Forall (fun e => e.2 <= 5) entries)
  /\ displaySearchResults destinations query entries
     = (if decide (topKeywords entries = []) then []
        else [ExplanationItem (topKeywords entries)])
       ++ (if decide (destinations = []) then [NoResultsItem]
           else renderResult <$> take 5 destinations).
Proof.
  rewrite displaySearchResults_parts.
  assert (Htop : topKeywords entries = [] <-> Forall (fun e => e.2 <= 5) entries).
  { unfold topKeywords. rewrite <- topEntries_nil.
    split; [by intros ?%fmap_nil_inv | by intros ->]. }
  set (header := if decide (topKeywords entries = []) then []
                 else [ExplanationItem (topKeywords entries)]).
  set (body := if decide (destinations = []) then [NoResultsItem]
               else renderResult <$> take 5 destinations).
  assert (Hheader : (length header <= 1)%nat)
    by (subst header; case_decide; simpl; lia).
  assert (Hbody : (1 <= length body <= 5)%nat).
  { subst body. case_decide as Hd; [simpl; lia|].
    rewrite length_fmap, length_take.
    destruct destinations; [done | cbn [length]; lia]. }
  split_and!.
  - intros Hnil. apply (f_equal length) in Hnil. rewrite length_app in Hnil.
    simpl in Hnil. lia.
  - rewrite length_app. lia.
  - rewrite elem_of_app. subst header body. split.
    + intros [Hin|Hin].
      * case_decide; [by apply elem_of_nil in Hin|].
        by apply list_elem_of_singleton in Hin.
      * case_decide; [done|]. by apply renderResult_items in Hin as (r & _ & ?).
    + intros ->. right. rewrite decide_True by done. apply list_elem_of_here.
  - rewrite elem_of_app, <- Htop. subst header body. split.
    + intros [Hin|Hin].
      * by case_decide; [apply elem_of_nil in Hin|].
      * case_decide; [by apply list_elem_of_singleton in Hin|].
        by apply renderResult_items in Hin as (r & _ & ?).
    + intros Hsome. left. rewrite decide_False by done. apply list_elem_of_here.
  - done.
Qed.

(** X17: of the ranked results the panel shows the first five, and no
    result left out has a higher total than a result shown. *)
Theorem shown_destinations_are_the_best `{JSHost} (catalog : list Destination)
    (scores : gmap string jsnum) (query : string) (entries : list (string * Z)) :
  Forall (fun shown =>
            Forall (fun hidden => r_score hidden <= r_score shown)
                   (drop 5 (findMatchingDestinations catalog scores)))
         (take 5 (findMatchingDestinations catalog scores))
  /\ (findMatchingDestinations catalog scores <> [] ->
      exists header,
        (length header <= 1)%nat
        /\ displaySearchResults (findMatchingDestinations catalog scores) query entries
           = header ++ (renderResult <$> take 5 (findMatchingDestinations catalog scores))).
Proof.
  split.
  - pose proof (sort_desc_sorted r_score
                  (rankPass (activeThreshold catalog scores) scores catalog))
      as Hsorted.
    rewrite <- findMatchingDestinations_spec in Hsorted.
    rewrite <- (take_drop 5 (findMatchingDestinations catalog scores)) in Hsorted.
    apply Forall_forall. intros shown Hshown. apply Forall_forall. intros hidden Hhidden.
    by apply (StronglySorted_app_1_elem_of _ _ _ _ _ Hsorted).
  - intros Hsome. rewrite displaySearchResults_parts. eexists. split; [|
      by rewrite (decide_False (P := findMatchingDestinations catalog scores = []))].
    case_decide; simpl; lia.
Qed.

Lemma shown_destinations_are_the_best_witness :
  exists header,
    (length header <= 1)%nat
    /\ @displaySearchResults exampleHost
         (@findMatchingDestinations exampleHost exampleCatalog beachFirst)
         "beach" [("beach", 8); ("mountain", 7)]
       = header ++ (@renderResult exampleHost
                      <$> take 5 (@findMatchingDestinations exampleHost
                                    exampleCatalog beachFirst)).
Proof.
  apply (@shown_destinations_are_the_best exampleHost exampleCatalog beachFirst
           "beach" [("beach", 8); ("mountain", 7)]).
  vm_compute. discriminate.
Defined.

(** X18: for a catalog that the start-up load produced, every result is
    shown with the icon of its entity, which is never empty: the icon
    looked up from the top keyword is not used. *)
Theorem shown_icon_is_entity_icon `{JSHost} (response : option ApiResponse)
    (scores : gmap string jsnum) :
  Forall (fun r => r_icon r = Some (resultIcon r) /\ resultIcon r <> "")
         (findMatchingDestinations (loadDestinations response) scores).
Proof.
  apply Forall_forall. intros r (d & Hd & Hr)%elem_of_findMatchingDestinations.
  apply loaded_icon_truthy in Hd.
  destruct (rankEntity_fields _ _ _ _ Hr) as (_ & _ & _ & _ & _ & Hicon).
  unfold resultIcon. rewrite Hicon, Hd.
  destruct (d_icon d) as [icon|]; [|done]. simpl in *. split; [done|].
  intros ->. done.
Qed.

Section ExplanationFacts.
Context `{JSHost}.

Lemma elem_of_fallbackEntries query e :
  e ∈ fallbackEntries query <->
  e.1 ∈ PREDEFINED_KEYWORDS /\ fallbackScoring query !! e.1 = Some (Num e.2).
Proof.
  unfold fallbackEntries. rewrite list_elem_of_omap. split.
  - intros (kw & Hkw & He).
    destruct (fallbackScoring query !! kw) as [[z|]|] eqn:Hz; try done.
    by injection He as <-.
  - intros [Hkw Hz]. exists e.1. split; [done|]. rewrite Hz. by destruct e.
Qed.

Lemma fallback_above_5 query kw :
  kw ∈ PREDEFINED_KEYWORDS ->
  exists z, fallbackScoring query !! kw = Some (Num z)
            /\ (5 < z <-> occursIn (slice_0_minus2 kw) (toLowerCase query)).
Proof.
  intros Hin. unfold fallbackScoring. rewrite fallbackScoringOver_in by done.
  eexists. split; [done|].
  pose proof (phraseBonus_nonneg (toLowerCase query) kw).
  pose proof (phraseBonus_le_3 (toLowerCase query) kw).
  destruct (baseScore_truncated (toLowerCase query) kw) as [Hocc Hno].
  destruct (includes (toLowerCase query) (slice_0_minus2 kw)) eqn:Hshort.
  - apply includes_spec in Hshort. specialize (Hocc Hshort). split; [done | lia].
  - apply includes_false in Hshort. rewrite (Hno Hshort). split; [lia | done].
Qed.
End ExplanationFacts.

(** X19: on the fallback path the explanation names only vocabulary
    keywords whose truncated form occurs in the lower-cased query, and it
    is left out exactly when no truncated keyword occurs: a phrase bonus
    alone never puts a keyword into the explanation. *)
Theorem fallback_explanation `{JSHost} (query : string) :
  Forall (fun kw => kw ∈ PREDEFINED_KEYWORDS
                    /\ occursIn (slice_0_minus2 kw) (toLowerCase query))
         (topKeywords (fallbackEntries query))
  /\ (topKeywords (fallbackEntries query) = [] <->
      Forall (fun kw => ~ occursIn (slice_0_minus2 kw) (toLowerCase query))
             PREDEFINED_KEYWORDS).
Proof.
  split.
  - unfold topKeywords. apply Forall_fmap, Forall_forall.
    intros e [[Hkw Hz]%elem_of_fallbackEntries Hhigh]%elem_of_topEntries. simpl.
    split; [done|]. destruct (fallback_above_5 query e.1 Hkw) as (z & Hz' & Hbar).
    rewrite Hz in Hz'. injection Hz' as <-. by apply Hbar.
  - assert (Hnil : topKeywords (fallbackEntries query) = []
                   <-> topEntries (fallbackEntries query) = []).
    { unfold topKeywords. split; [by intros ?%fmap_nil_inv | by intros ->]. }
    rewrite Hnil, topEntries_nil, !Forall_forall. split.
    + intros Hlow kw Hkw Hocc.
      destruct (fallback_above_5 query kw Hkw) as (z & Hz & Hbar).
      assert (Hin : (kw, z) ∈ fallbackEntries query)
        by (by apply elem_of_fallbackEntries).
      apply Hlow in Hin. simpl in Hin. apply Hbar in Hocc. lia.
    + intros Hnone e [Hkw Hz]%elem_of_fallbackEntries.
      destruct (fallback_above_5 query e.1 Hkw) as (z & Hz' & Hbar).
      rewrite Hz in Hz'. injection Hz' as <-.
      destruct (decide (5 < e.2)) as [Hhigh|]; [|lia].
      apply Hbar in Hhigh. by apply Hnone in Hhigh.
Qed.

(** The keyword found in the query is named; the +2 of ["vacation"] on
    ["tropical"] is not enough to name it. *)
Example explanation_for_beach_vacation :
  topKeywords (@fallbackEntries exampleHost "Beach vacation") = ["beach"].
Proof. vm_compute. reflexivity. Qed.

(** ** The whole search on the fallback path *)

Lemma phraseBonus_first_rule_only queryLower kw :
  Forall (fun phrase => ~ occursIn phrase queryLower)
         ["hiking"; "trek"; "resort"; "spa"; "museum"; "history"] ->
  phraseBonus queryLower kw <= 2.
Proof.
  intros Hnone.
  repeat (apply Forall_cons in Hnone as [?%includes_false Hnone]).
  unfold phraseBonus, bonusRules, ruleBonus. cbn [foldr fst snd existsb].
  repeat match goal with H : includes _ _ = false |- _ => rewrite H; clear H end.
  cbn [orb].
  destruct (includes queryLower "vacation" || (includes queryLower "holiday" || false));
    repeat (case_decide; simplify_eq/=); lia.
Qed.

(** X20: on the fallback path, an entity tagged with a vocabulary keyword
    that occurs in the lower-cased query is among the results, with a
    total of at least 9 (strings being their own property keys); the panel
    then opens with the explanation, which names at least one keyword,
    goes on with the first five results and has no no-results item. *)
Theorem search_finds_tagged_entity `{JSHost} (catalog : list Destination)
    (query kw : string) (d : Destination) :
  (forall s, ToPropertyKey (JStr s) = s) ->
  kw ∈ PREDEFINED_KEYWORDS ->
  occursIn kw (toLowerCase query) ->
  d ∈ catalog ->
  JStr kw ∈ keywordList d ->
  (exists r, r ∈ findMatchingDestinations catalog (fallbackScoring query)
             /\ r_id r = d_id d /\ r_name r = d_name d /\ 9 <= r_score r)
  /\ topKeywords (fallbackEntries query) <> []
  /\ fallbackSearchPanel catalog query
     = ExplanationItem (topKeywords (fallbackEntries query))
       :: (renderResult
             <$> take 5 (findMatchingDestinations catalog (fallbackScoring query))).
Proof.
  intros Hkey Hvoc Hocc%includes_spec Hd Hkw.
  set (scores := fallbackScoring query).
  assert (Hz : exists z, scores !! kw = Some (Num z) /\ 9 <= z) .
  { subst scores. unfold fallbackScoring. rewrite fallbackScoringOver_in by done.
    eexists. split; [done|].
    pose proof (phraseBonus_nonneg (toLowerCase query) kw).
    unfold baseScore. rewrite Hocc. lia. }
  destruct Hz as (z & Hz & Hz9).
  assert (Hin : {| keyword := JStr kw; score := z |} ∈ contributing 5 scores d).
  { apply contributing_elem_of. simpl. split; [done|]. split; [|lia].
    unfold scoreOf. by rewrite Hkey, Hz. }
  pose proof (sumScores_elem_of 5 _ _ ltac:(lia) (contributing_above 5 scores d) Hin)
    as Hsum. simpl in Hsum.
  destruct (rankEntity 5 scores d) as [r|] eqn:Hr;
    [|apply rankEntity_None in Hr; lia].
  assert (Hpass : r ∈ rankPass 5 scores catalog).
  { apply list_elem_of_omap. by exists d. }
  destruct (activeThreshold_cases catalog scores) as [[Hnil _]|[_ Hbar]].
  { rewrite Hnil in Hpass. by apply elem_of_nil in Hpass. }
  assert (Hresult : r ∈ findMatchingDestinations catalog scores).
  { apply elem_of_findMatchingDestinations. exists d. by rewrite Hbar. }
  assert (Htop : topKeywords (fallbackEntries query) <> []).
  { intros Hnone%fmap_nil_inv. apply topEntries_nil in Hnone.
    assert (Hentry : (kw, z) ∈ fallbackEntries query)
      by (by apply elem_of_fallbackEntries).
    eapply Forall_forall in Hnone; [|exact Hentry]. simpl in Hnone. lia. }
  split_and!.
  - exists r. split; [done|].
    destruct (rankEntity_fields _ _ _ _ Hr) as (? & ? & _).
    apply rankEntity_Some in Hr as (_ & Hscore & _). split_and!; [done..|lia].
  - exact Htop.
  - unfold fallbackSearchPanel. rewrite displaySearchResults_parts.
    fold scores. rewrite decide_False by done. rewrite decide_False; [done|].
    intros Hnil. rewrite Hnil in Hresult. by apply elem_of_nil in Hresult.
Qed.

Lemma search_finds_tagged_entity_witness :
  (exists r, r ∈ @findMatchingDestinations exampleHost DEFAULT_DESTINATIONS
                   (@fallbackScoring exampleHost "Best FOOD in town")
             /\ r_id r = "D-003" /\ r_name r = "Kyoto, Japan" /\ 9 <= r_score r)
  /\ topKeywords (@fallbackEntries exampleHost "Best FOOD in town") <> []
  /\ @fallbackSearchPanel exampleHost DEFAULT_DESTINATIONS "Best FOOD in town"
     = ExplanationItem (topKeywords (@fallbackEntries exampleHost "Best FOOD in town"))
       :: (@renderResult exampleHost
             <$> take 5 (@findMatchingDestinations exampleHost DEFAULT_DESTINATIONS
                           (@fallbackScoring exampleHost "Best FOOD in town"))).
Proof.
  apply (@search_finds_tagged_entity exampleHost DEFAULT_DESTINATIONS
           "Best FOOD in town" "food"
           (builtin "D-003" "Kyoto, Japan"
              ["cultural"; "historical"; "city"; "photography"; "food"]
              "fa-landmark")).
  - reflexivity.
  - apply (bool_decide_unpack _). vm_compute. exact I.
  - by exists "best ", " in town".
  - apply list_elem_of_further, list_elem_of_further, list_elem_of_here.
  - do 4 apply list_elem_of_further. apply list_elem_of_here.
Defined.

(** The panel for that query: the explanation, then Kyoto and Lisbon, the
    two built-in entities tagged ["food"]. *)
Example panel_for_food :
  @fallbackSearchPanel exampleHost DEFAULT_DESTINATIONS "Best FOOD in town"
  = [ ExplanationItem ["food"];
      ResultItem "Kyoto, Japan" "fa-landmark" None [JStr "food"] None None;
      ResultItem "Lisbon, Portugal" "fa-city" None [JStr "food"] None None ].
Proof. vm_compute. reflexivity. Qed.

(** X21: on the fallback path, a query in which no truncated keyword
    occurs and none of the phrases of the three +3 rules occurs gives no
    result for any catalog, and the panel is the no-results item alone:
    ["vacation"] and ["holiday"] add 2 to a base score of 1, which stays
    below both bars and below the bar of the explanation. *)
Theorem search_without_keywords_finds_nothing `{JSHost}
    (catalog : list Destination) (query : string) :
  Forall (fun kw => ~ occursIn (slice_0_minus2 kw) (toLowerCase query))
         PREDEFINED_KEYWORDS ->
  Forall (fun phrase => ~ occursIn phrase (toLowerCase query))
         ["hiking"; "trek"; "resort"; "spa"; "museum"; "history"] ->
  findMatchingDestinations catalog (fallbackScoring query) = []
  /\ fallbackSearchPanel catalog query = [NoResultsItem].
Proof.
  intros Hkws Hphrases.
  assert (Hempty : findMatchingDestinations catalog (fallbackScoring query) = []).
  { apply passes_empty_of_low_scores. intros key s.
    unfold fallbackScoring.
    rewrite (fallbackScoringOver_lookup _ _ _ bonusKeywords_predefined).
    case_decide as Hin; [|done]. intros [= <-].
    eapply Forall_forall in Hkws; [|exact Hin].
    destruct (baseScore_truncated (toLowerCase query) key) as [_ Hbase].
    rewrite (Hbase Hkws).
    pose proof (phraseBonus_first_rule_only (toLowerCase query) key Hphrases). lia. }
  split; [exact Hempty|].
  assert (Htop : topKeywords (fallbackEntries query) = []).
  { unfold topKeywords.
    replace (topEntries (fallbackEntries query)) with (@nil (string * Z)); [done|].
    symmetry. apply topEntries_nil, Forall_forall.
    intros e [Hvoc He]%elem_of_fallbackEntries.
    destruct (fallback_above_5 query e.1 Hvoc) as (z & Hz & Hhigh).
    rewrite Hz in He. injection He as <-.
    eapply Forall_forall in Hkws; [|exact Hvoc].
    destruct (decide (5 < z)) as [Hz5|]; [|lia]. by apply Hhigh in Hz5. }
  unfold fallbackSearchPanel. rewrite displaySearchResults_parts, Hempty, Htop.
  done.
Qed.

Lemma search_without_keywords_finds_nothing_witness :
  @findMatchingDestinations exampleHost DEFAULT_DESTINATIONS
    (@fallbackScoring exampleHost "A sunny Holiday") = []
  /\ @fallbackSearchPanel exampleHost DEFAULT_DESTINATIONS "A sunny Holiday"
     = [NoResultsItem].
Proof.
  apply (@search_without_keywords_finds_nothing exampleHost DEFAULT_DESTINATIONS
           "A sunny Holiday").
  - unfold PREDEFINED_KEYWORDS.
    repeat (apply Forall_cons; split; [by apply includes_false|]). constructor.
  - repeat (apply Forall_cons; split; [by apply includes_false|]). constructor.
Defined.

(** ** Loading the catalog *)

(** X22: the identifiers of the loaded catalog.  A successful reply gives
    one entity per record, in the order of the records and with their
    identifiers, records with a broken keyword text included.  When those
    identifiers are distinct, and always when the built-in catalog stands
    in for a reply that failed, is not marked successful or has no record
    list, the identifiers of the catalog are distinct and no search
    returns an identifier twice. *)
Theorem loaded_catalog_identifiers `{JSHost} (response : option ApiResponse)
    (scores : gmap string jsnum) :
  (forall dests,
     response = Some {| success := true; destinations := Some dests |} ->
     NoDup (DestinationID <$> dests)) ->
  NoDup (d_id <$> loadDestinations response)
  /\ NoDup (r_id <$> findMatchingDestinations (loadDestinations response) scores)
  /\ (forall dests,
        response = Some {| success := true; destinations := Some dests |} ->
        d_id <$> loadDestinations response = DestinationID <$> dests).
Proof.
  intros Hdistinct.
  assert (Hids : forall dests,
            response = Some {| success := true; destinations := Some dests |} ->
            d_id <$> loadDestinations response = DestinationID <$> dests).
  { intros dests ->. simpl. rewrite <- list_fmap_compose. by apply list_fmap_ext. }
  assert (Hcatalog : NoDup (d_id <$> loadDestinations response)).
  { destruct response as [[[] [dests|]]|];
      try (apply (bool_decide_unpack _); vm_compute; exact I).
    rewrite (Hids dests eq_refl). by apply Hdistinct. }
  split_and!; [exact Hcatalog | by apply result_ids_NoDup | exact Hids].
Qed.

Lemma loaded_catalog_identifiers_witness :
  NoDup (d_id <$> @loadDestinations exampleHost
                    (Some {| success := true; destinations := Some [soundRecord; brokenRecord] |}))
  /\ NoDup (r_id <$> @findMatchingDestinations exampleHost
                       (@loadDestinations exampleHost
                          (Some {| success := true; destinations := Some [soundRecord; brokenRecord] |}))
                       beachFirst)
  /\ (forall dests,
        Some {| success := true; destinations := Some [soundRecord; brokenRecord] |}
        = Some {| success := true; destinations := Some dests |} ->
        d_id <$> @loadDestinations exampleHost
                   (Some {| success := true; destinations := Some [soundRecord; brokenRecord] |})
        = DestinationID <$> dests).
Proof.
  apply (@loaded_catalog_identifiers exampleHost
           (Some {| success := true;
                    destinations := Some [soundRecord; brokenRecord] |})
           beachFirst).
  intros dests Hdests. injection Hdests as <-.
  apply (bool_decide_unpack _). vm_compute. exact I.
Defined.

(** A successful reply without records leaves the catalog empty: the
    built-in catalog does not stand in for it. *)
Example empty_reply_empty_catalog :
  @loadDestinations exampleHost
    (Some {| success := true; destinations := Some [] |}) = []
  /\ @loadDestinations exampleHost
       (Some {| success := false; destinations := Some [soundRecord] |})
     = DEFAULT_DESTINATIONS.
Proof. split; reflexivity. Qed.

(** X23: which records can be found at all.  An entity loaded from a
    record yields a result, in either loop, only if the record has a
    non-empty keyword text that the parser turns into a non-empty array,
    which is then its keyword list: a record whose text is missing, empty
    or rejected, or parses to a number, a string, an object, [null] or the
    empty array, is loaded but never matched, for every score object. *)
Theorem loaded_entity_found_only_with_array `{JSHost} (dest : RawDestination)
    (scores : gmap string jsnum) (result : MatchResult) :
  firstPassEntry scores (fromDatabase dest) = Some result
  \/ secondPassEntry scores (fromDatabase dest) = Some result ->
  exists text kw kws,
    Keywords dest = Some text /\ text <> ""
    /\ JSON_parse text = Some (JArr (kw :: kws))
    /\ keywords (fromDatabase dest) = JArr (kw :: kws).
Proof.
  intros Hfound.
  assert (Harr : exists kw kws, keywords (fromDatabase dest) = JArr (kw :: kws)).
  { unfold firstPassEntry, secondPassEntry in Hfound.
    destruct (keywords (fromDatabase dest)) as [| | | | |[|kw kws]|];
      try (by destruct Hfound).
    by exists kw, kws. }
  destruct Harr as (kw & kws & Hkws). revert Hkws.
  unfold fromDatabase. cbn [keywords].
  destruct (Keywords dest) as [text|]; [|done]. cbn [field_truthy default].
  destruct (String.eqb_spec text "") as [|Hne]; [done|]. cbn [negb].
  change (id text) with text.
  destruct (JSON_parse text) as [parsed|] eqn:Hparse; [|done].
  intros ->. by exists text, kw, kws.
Qed.

Lemma loaded_entity_found_only_with_array_witness :
  exists text kw kws,
    Keywords soundRecord = Some text /\ text <> ""
    /\ @JSON_parse exampleHost text = Some (JArr (kw :: kws))
    /\ keywords (@fromDatabase exampleHost soundRecord) = JArr (kw :: kws).
Proof.
  eapply (@loaded_entity_found_only_with_array exampleHost soundRecord beachFirst).
  left. vm_compute. reflexivity.
Defined.

(** A keyword text that is JSON, but an object: loaded, never matched. *)
Example object_as_keywords :
  let record :=
    {| DestinationID := "D-102"; Name := "Oslo"; Country := None;
       Keywords := Some "{}"; ImageURL := None; Description := None;
       Region := None; Icon := None |} in
  keywords (@fromDatabase exampleHost record) = JObj []
  /\ @findMatchingDestinations exampleHost
       [@fromDatabase exampleHost record] beachFirst = [].
Proof. split; vm_compute; reflexivity. Qed.

(** ** Clicking a result *)

Lemma beforeComma_no_comma name : ~ hasChar "," name -> beforeComma name = name.
Proof.
  induction name as [|c name IH]; [done|]. rewrite hasChar_cons. intros Hno.
  simpl. destruct (Ascii.eqb_spec c ","); [tauto|]. rewrite IH; tauto.
Qed.

Lemma beforeComma_app name rest :
  ~ hasChar "," name -> beforeComma (name +:+ String "," rest) = name.
Proof.
  induction name as [|c name IH]; [done|]. rewrite hasChar_cons. intros Hno.
  rewrite app_string_cons. simpl.
  destruct (Ascii.eqb_spec c ","); [tauto|]. rewrite IH; tauto.
Qed.

Lemma includes_self s : includes s s = true.
Proof. apply includes_spec. exists "", "". by rewrite app_string_nil_r. Qed.

(** X24: the two loops of the click handler apply the same test to a
    heading.  An item without a heading, or with an empty one, is never
    clicked; and a result whose name is empty or starts with a comma clicks
    every item that has a non-empty heading. *)
Theorem click_tests_agree (name : string) (title : option string) :
  matchesTrendingItem name title = matchesLocationCard name title
  /\ matchesLocationCard name None = false
  /\ matchesLocationCard name (Some "") = false
  /\ (forall c heading rest,
        matchesLocationCard "" (Some (String c heading)) = true
        /\ matchesLocationCard (String "," rest) (Some (String c heading)) = true).
Proof.
  unfold matchesTrendingItem, matchesLocationCard. split_and!.
  - by destruct (field_truthy title), (includes name (default "" title)).
  - done.
  - done.
  - intros c heading rest.
    change (beforeComma "") with "". change (beforeComma (String "," rest)) with "".
    rewrite includes_empty, !orb_true_r. done.
Qed.

(** X25: a result finds its own card.  An entity loaded from a record
    whose name is not empty and has no comma passes the test of both loops
    on the item headed with that name, whether or not the record has a
    country. *)
Theorem result_finds_its_card `{JSHost} (dest : RawDestination) :
  Name dest <> "" -> ~ hasChar "," (Name dest) ->
  matchesTrendingItem (d_name (fromDatabase dest)) (Some (Name dest)) = true
  /\ matchesLocationCard (d_name (fromDatabase dest)) (Some (Name dest)) = true.
Proof.
  intros Hne Hcomma.
  assert (Hcard :
    matchesLocationCard (d_name (fromDatabase dest)) (Some (Name dest)) = true).
  { unfold matchesLocationCard. simpl.
    destruct (String.eqb_spec (Name dest) ""); [done|]. simpl.
    apply orb_true_iff. right.
    destruct (field_truthy (Country dest)).
    + change (", " +:+ default "" (Country dest))
        with (String "," (String " " (default "" (Country dest)))).
      rewrite (beforeComma_app _ _ Hcomma). apply includes_self.
    + rewrite app_string_nil_r, (beforeComma_no_comma _ Hcomma).
      apply includes_self. }
  split; [|exact Hcard].
  rewrite <- Hcard. unfold matchesTrendingItem, matchesLocationCard.
  by destruct (field_truthy (Some (Name dest))),
       (includes (d_name (fromDatabase dest)) (default "" (Some (Name dest)))).
Qed.

Lemma result_finds_its_card_witness :
  matchesTrendingItem (d_name (@fromDatabase exampleHost soundRecord)) (Some "Goa") = true
  /\ matchesLocationCard (d_name (@fromDatabase exampleHost soundRecord)) (Some "Goa") = true.
Proof.
  apply (@result_finds_its_card exampleHost soundRecord).
  - discriminate.
  - simpl. rewrite !hasChar_cons.
    intros [Hc|[Hc|[Hc|Hc%hasChar_nil]]]; [discriminate..|exact Hc].
Defined.

(** ** The search input *)

Section SearchInputFacts.
Context (trim : string -> string).

Local Abbreviation isClick := (fun event : BarEvent => event = ClickedOutside).

Lemma runBar_searches events bar :
  searches (runBar trim bar events)
  = searches bar ++ settledQueries trim (searchTimeout bar) events.
Proof.
  revert bar. induction events as [|event events IH]; intros bar.
  - simpl. by rewrite app_nil_r.
  - change (runBar trim bar (event :: events))
      with (runBar trim (barStep trim bar event) events).
    rewrite IH. destruct event as [value| |]; cbn [barStep settledQueries].
    + unfold onInput. by destruct (js_length (trim value) <? 2)%nat.
    + unfold onTimeout. destruct (searchTimeout bar) as [query|] eqn:Harmed; simpl.
      * by rewrite <- app_assoc.
      * by rewrite Harmed.
    + done.
Qed.

Lemma settledQueries_armed_None events q :
  q ∈ settledQueries trim None events <->
  exists pre value clicks post,
    events = pre ++ Typed value :: clicks ++ Elapsed :: post
    /\ Forall isClick clicks
    /\ q = trim value /\ (2 <= js_length q)%nat.
Proof.
  assert (Hgen : forall events armed,
    q ∈ settledQueries trim armed events <->
    (armed = Some q
     /\ exists clicks post, events = clicks ++ Elapsed :: post /\ Forall isClick clicks)
    \/ exists pre value clicks post,
         events = pre ++ Typed value :: clicks ++ Elapsed :: post
         /\ Forall isClick clicks
         /\ q = trim value /\ (2 <= js_length q)%nat).
  { clear events. induction events as [|event events IH]; intros armed.
    - simpl. split; [by intros ?%elem_of_nil|].
      intros [(_ & clicks & post & Hnil & _)|(pre & v & clicks & post & Hnil & _)].
      + by destruct clicks.
      + by destruct pre.
    - destruct event as [value| |]; cbn [settledQueries].
      + rewrite IH. split.
        * intros [(Harmed & clicks & post & -> & Hclicks)|Hlater].
          -- right. exists [], value, clicks, post. split; [done|]. split; [done|].
             destruct (Nat.ltb_spec (js_length (trim value)) 2); [done|].
             injection Harmed as <-. done.
          -- right. destruct Hlater as (pre & v & clicks & post & -> & Hrest).
             by exists (Typed value :: pre), v, clicks, post.
        * intros [(_ & clicks & post & Hev & Hclicks)|Hlater].
          -- destruct clicks as [|click clicks]; [done|].
             injection Hev as <- _. by apply Forall_cons in Hclicks as [? _].
          -- destruct Hlater as (pre & v & clicks & post & Hev & Hclicks & -> & Hlen).
             destruct pre as [|event pre]; injection Hev as Hhead Hev.
             ++ subst value. left. split; [|by exists clicks, post].
                by destruct (Nat.ltb_spec (js_length (trim v)) 2); [lia|].
             ++ right. by exists pre, v, clicks, post.
      + rewrite elem_of_app, IH. split.
        * intros [Harmed|[(? & _)|Hlater]]; [| done |].
          -- left. destruct armed as [q'|]; [|by apply elem_of_nil in Harmed].
             apply list_elem_of_singleton in Harmed as ->.
             split; [done|]. by exists [], events.
          -- right. destruct Hlater as (pre & v & clicks & post & -> & Hrest).
             by exists (Elapsed :: pre), v, clicks, post.
        * intros [(-> & clicks & post & Hev & Hclicks)|Hlater].
          -- left. apply list_elem_of_here.
          -- right. right.
             destruct Hlater as (pre & v & clicks & post & Hev & Hrest).
             destruct pre as [|event pre]; [done|]. injection Hev as _ ->.
             by exists pre, v, clicks, post.
      + rewrite IH. split.
        * intros [(-> & clicks & post & -> & Hclicks)|Hlater].
          -- left. split; [done|]. exists (ClickedOutside :: clicks), post.
             split; [done|]. by constructor.
          -- right. destruct Hlater as (pre & v & clicks & post & -> & Hrest).
             by exists (ClickedOutside :: pre), v, clicks, post.
        * intros [(-> & clicks & post & Hev & Hclicks)|Hlater].
          -- left. split; [done|]. destruct clicks as [|click clicks]; [done|].
             injection Hev as _ ->. apply Forall_cons in Hclicks as [_ Hclicks].
             by exists clicks, post.
          -- right. destruct Hlater as (pre & v & clicks & post & Hev & Hrest).
             destruct pre as [|event pre]; [done|]. injection Hev as _ ->.
             by exists pre, v, clicks, post. }
  rewrite Hgen. split; [intros [[? _]|?]; done | by right].
Qed.
End SearchInputFacts.

(** X26: the debounce.  Starting with no timeout pending, a search is
    started for a query exactly when some typed value, trimmed, is that
    query, has at least two UTF-16 code units, and was followed by its timeout
    firing before any other value was typed; clicks outside the bar in
    between hide the containers but do not cancel the timeout. *)
Theorem debounced_searches (trim : string -> string) (bar : SearchBar)
    (events : list BarEvent) (q : string) :
  searchTimeout bar = None ->
  q ∈ searches (runBar trim bar events) <->
  q ∈ searches bar
  \/ exists pre value clicks post,
       events = pre ++ Typed value :: clicks ++ Elapsed :: post
       /\ Forall (fun event => event = ClickedOutside) clicks
       /\ q = trim value /\ (2 <= js_length q)%nat.
Proof.
  intros Hidle. rewrite runBar_searches, Hidle, elem_of_app.
  by rewrite settledQueries_armed_None.
Qed.

Lemma debounced_searches_witness :
  "beach" ∈ searches (runBar (fun s => s) idleBar
                        [Typed "b"; Typed "be"; Typed "beach"; ClickedOutside; Elapsed]) <->
  "beach" ∈ searches idleBar
  \/ exists pre value clicks post,
       [Typed "b"; Typed "be"; Typed "beach"; ClickedOutside; Elapsed]
       = pre ++ Typed value :: clicks ++ Elapsed :: post
       /\ Forall (fun event => event = ClickedOutside) clicks
       /\ "beach" = (fun s : string => s) value
       /\ (2 <= js_length "beach")%nat.
Proof.
  apply (debounced_searches (fun s => s) idleBar). reflexivity.
Defined.

(** A burst of three values and one quiet period: one search, for the
    last value.  One accented letter is two bytes and one code unit: no
    search is started for it. *)
Example burst_starts_one_search :
  searches (runBar (fun s => s) idleBar
              [Typed "b"; Typed "be"; Typed "beach"; ClickedOutside; Elapsed])
  = ["beach"]
  /\ searches (runBar (fun s => s) idleBar
                 [Typed (String "195" (String "169" "")); Elapsed])
     = [].
Proof. split; reflexivity. Qed.
